(** * download_photos.py: a shallow embedding and its verified properties

    The program reads photo-link tables, derives one download task per
    usable link and fetches every task through the external [gdown] tool
    with a retry policy.  This development embeds

    - the text helpers [extract_file_id] and [sanitize_filename],
    - the row loop of [process_csv_file] that builds the tasks, on rows of
      texts and on rows with [None] cells,
    - [download_file], the fetch executor, over an explicit world
      (filesystem, count of transport invocations, event trace),
    - the counting loops of [process_csv_file] and [main].

    Python strings are sequences of Unicode code points: a string is a
    list of code points, each an [N].  The character tables of the
    interpreter that reach beyond ASCII (alphanumeric property, lower-case
    mapping) are parameters of the development. *)

From Stdlib Require Import ZArith NArith List Bool Ascii String Lia.
From stdpp Require Import base option list gmap.

Local Open Scope N_scope.

(** ** Strings as lists of code points *)

Abbreviation str := (list N) (only parsing).

(** An ASCII literal of the source, as code points. *)
Definition lit (s : string) : str :=
  List.map N_of_ascii (list_ascii_of_string s).

Definition in_range (lo hi c : N) : bool := (lo <=? c) && (c <=? hi).

Definition is_digit (c : N) : bool := in_range 48 57 c.
Definition is_upper (c : N) : bool := in_range 65 90 c.
Definition is_lower (c : N) : bool := in_range 97 122 c.
Definition is_ascii_alnum (c : N) : bool := is_digit c || is_upper c || is_lower c.

Definition UNDERSCORE : N := 95.
Definition HYPHEN : N := 45.
Definition DOT : N := 46.
Definition LBRACKET : N := 91.
Definition SLASH : N := 47.
Definition ZERO : N := 48.
Definition PLUS : N := 43.

(** [str.isspace] of one code point: the whitespace table of CPython
    ([_PyUnicode_IsWhitespace]). *)
Definition is_space (c : N) : bool :=
  in_range 9 13 c || in_range 28 32 c || (c =? 133) || (c =? 160)
  || (c =? 5760) || in_range 8192 8202 c || (c =? 8232) || (c =? 8233)
  || (c =? 8239) || (c =? 8287) || (c =? 12288).

(** [s.strip()]: leading and trailing whitespace removed. *)
Fixpoint lstrip (s : str) : str :=
  match s with
  | [] => []
  | c :: rest => if is_space c then lstrip rest else s
  end.

Definition rstrip (s : str) : str := rev (lstrip (rev s)).

Definition strip (s : str) : str := rstrip (lstrip s).

(** [s.startswith(p)]. *)
Fixpoint startswith (p s : str) : bool :=
  match p, s with
  | [], _ => true
  | _ :: _, [] => false
  | a :: p', b :: s' => (a =? b) && startswith p' s'
  end.

(** [needle in hay] for strings: substring test, scanning start positions. *)
Fixpoint contains (needle hay : str) : bool :=
  startswith needle hay ||
  match hay with
  | [] => false
  | _ :: rest => contains needle rest
  end.

(** The longest prefix of [s] whose characters satisfy [cls]: what a greedy
    [[cls]*] consumes. *)
Fixpoint span_class (cls : N -> bool) (s : str) : str :=
  match s with
  | [] => []
  | c :: rest => if cls c then c :: span_class cls rest else []
  end.

(** *** [extract_file_id] *)

(** The class [[a-zA-Z0-9_-]] of both patterns. *)
Definition is_id_char (c : N) : bool :=
  is_lower c || is_upper c || is_digit c || (c =? UNDERSCORE) || (c =? HYPHEN).

(** A match of the pattern [lit([cls]+)] anchored at the start of [s]:
    the literal, then the longest non-empty run of [cls]; the result is
    group 1. *)
Definition match_lit_group (l : str) (cls : N -> bool) (s : str) : option str :=
  if startswith l s
  then match span_class cls (drop (length l) s) with
       | [] => None
       | g => Some g
       end
  else None.

(** [re.search] with such a pattern: the match at the leftmost start
    position that has one. *)
Fixpoint search_lit_group (l : str) (cls : N -> bool) (s : str) : option str :=
  match match_lit_group l cls s with
  | Some g => Some g
  | None =>
      match s with
      | [] => None
      | _ :: rest => search_lit_group l cls rest
      end
  end.

(** [re.search(r'id=([a-zA-Z0-9_-]+)', drive_url)], group 1. *)
Definition search_query_id (drive_url : str) : option str :=
  search_lit_group (lit "id=") is_id_char drive_url.

(** [re.search(r'/d/([a-zA-Z0-9_-]+)', drive_url)], group 1. *)
Definition search_path_id (drive_url : str) : option str :=
  search_lit_group (lit "/d/") is_id_char drive_url.

(** [not s or s.strip() == '']. *)
Definition is_blank (s : str) : bool :=
  match s with
  | [] => true
  | _ => match strip s with [] => true | _ => false end
  end.

Definition extract_file_id (drive_url : str) : option str :=
  if is_blank drive_url then None
  else
    match search_query_id drive_url with
    | Some g => Some g
    | None =>
        match search_path_id drive_url with
        | Some g => Some g
        | None => None
        end
    end.

(** *** Other string operations of the task builder *)

(** [s.zfill(width)]: zeros on the left up to [width] characters, after a
    leading sign when there is one. *)
Definition zfill (width : nat) (s : str) : str :=
  if (width <=? length s)%nat then s
  else
    let fill := repeat ZERO (width - length s) in
    match s with
    | c :: rest =>
        if (c =? PLUS) || (c =? HYPHEN) then c :: fill ++ rest else fill ++ s
    | [] => fill
    end.

(** [s.replace(old, new)] for a non-empty [old]: occurrences are replaced
    from the left and do not overlap; [skip] counts the characters of an
    occurrence still to be passed over. *)
Fixpoint replace_from (old new : str) (skip : nat) (s : str) : str :=
  match s with
  | [] => []
  | c :: rest =>
      match skip with
      | S k => replace_from old new k rest
      | O =>
          if startswith old s
          then new ++ replace_from old new (length old - 1) rest
          else c :: replace_from old new 0 rest
      end
  end.

Definition replace (old new s : str) : str := replace_from old new 0 s.

(** [os.path.basename(p)] (posixpath): the text after the last slash. *)
Fixpoint basename (p : str) : str :=
  match p with
  | [] => []
  | c :: rest =>
      if existsb (N.eqb SLASH) rest then basename rest
      else if c =? SLASH then rest else p
  end.

(** [os.path.join(a, b)] (posixpath, two arguments). *)
Definition path_join (a b : str) : str :=
  if startswith [SLASH] b then b
  else match a with
       | [] => b
       | _ => if N.eqb (List.last a 0) SLASH then a ++ b else a ++ SLASH :: b
       end.

(** [re.match(r'([^[]+)', s)], group 1: the longest prefix without an
    opening bracket, when it is not empty. *)
Definition match_before_bracket (s : str) : option str :=
  match span_class (fun c => negb (c =? LBRACKET)) s with
  | [] => None
  | g => Some g
  end.

Section Unicode.

(** [str.isalnum] of a code point above ASCII (the Unicode database of the
    interpreter). *)
Variable uni_alnum : N -> bool.

(** The lower-case mapping of a code point above ASCII.  The mapping is
    one-to-many, and [str.lower] decides the final sigma by the text around
    it: the first argument is the text before the code point (nearest
    first), the last one the text after it. *)
Variable uni_lower : str -> N -> str -> str.

(** *** [sanitize_filename] *)

(** [\w] of a [str] pattern: an alphanumeric code point or the underscore. *)
Definition is_word (c : N) : bool :=
  (if c <? 128 then is_ascii_alnum c else uni_alnum c) || (c =? UNDERSCORE).

(** The class [[^\w\-.]] of the first substitution. *)
Definition is_unsafe (c : N) : bool :=
  negb (is_word c || (c =? HYPHEN) || (c =? DOT)).

(** [re.sub(r'[^\w\-.]', '_', name)]: every match is one character. *)
Definition sub_unsafe (name : str) : str :=
  List.map (fun c => if is_unsafe c then UNDERSCORE else c) name.

(** [re.sub(r'_+', '_', name)]: the scanner emits the replacement at the
    first underscore of a run and consumes the rest of the run
    ([in_run] tells that the previous character was an underscore). *)
Fixpoint sub_runs (in_run : bool) (name : str) : str :=
  match name with
  | [] => []
  | c :: rest =>
      if c =? UNDERSCORE
      then (if in_run then sub_runs true rest
            else UNDERSCORE :: sub_runs true rest)
      else c :: sub_runs false rest
  end.

Definition sanitize_filename (name : str) : str :=
  let name := sub_unsafe name in
  let name := sub_runs false name in
  name.

(** *** The row loop of [process_csv_file] *)

(** A row of [csv.DictReader] whose cells are all texts: a dictionary from
    column names to cell texts.  [row.get(key, '')] is [row_get row key].
    Rows with [None] cells (lines shorter than the header) are the raw rows
    further down; on rows without [None] the two agree
    ([row_tasks_raw_texts]). *)
Definition row_get (row : gmap (list N) (list N)) (key : str) : str :=
  match row !! key with
  | Some v => v
  | None => []
  end.

Definition photo_columns : list (list N * list N) :=
  [ (lit "Photo of Polling Station Building (PSB)", lit "PSB");
    (lit "Photo of Polling Station Premises with PS Building (PSP)", lit "PSP") ].

(** The f-string of the output file name. *)
Definition output_filename
    (district_safe constituency polling_station_safe ps_type_safe photo_type file_id : str)
    : str :=
  district_safe ++ lit "-" ++ constituency ++ lit "-PS" ++ polling_station_safe
  ++ lit "-" ++ ps_type_safe ++ lit "-" ++ photo_type ++ lit "-" ++ file_id
  ++ lit ".jpg".

(** The constituency label of a row, before sanitizing. *)
Definition constituency_of (ac_name_full : str) : str :=
  match match_before_bracket ac_name_full with
  | Some g => strip g
  | None => lit "Unknown"
  end.

(** The body of [for col_name, photo_type in photo_columns]: the tasks one
    photo column adds ([continue] adds none). *)
Definition column_tasks
    (output_dir district_safe constituency polling_station_safe ps_type_safe : str)
    (row : gmap (list N) (list N)) (column : list N * list N)
    : list (list N * list N) :=
  let (col_name, photo_type) := column in
  let drive_url := row_get row col_name in
  if is_blank drive_url then []
  else
    match extract_file_id drive_url with
    | None | Some [] => []
    | Some file_id =>
        let output_filename :=
          output_filename district_safe constituency polling_station_safe
                          ps_type_safe photo_type file_id in
        let output_path := path_join output_dir output_filename in
        [(file_id, output_path)]
    end.

(** The body of [for row in reader]: the tasks one row adds, in order. *)
Definition row_tasks (district output_dir : str) (row : gmap (list N) (list N))
    : list (list N * list N) :=
  let ac_name_full := row_get row (lit "AC No. & AC Name") in
  let polling_station := strip (row_get row (lit "Polling Station No.")) in
  let ps_type := strip (row_get row (lit "Polling Station Type")) in
  let constituency := constituency_of ac_name_full in
  let constituency := sanitize_filename constituency in
  let district_safe := sanitize_filename district in
  let polling_station_safe := zfill 3 polling_station in
  let ps_type_safe := sanitize_filename ps_type in
  flat_map
    (column_tasks output_dir district_safe constituency polling_station_safe
                  ps_type_safe row)
    photo_columns.

(** The district label: the file name of the table without its suffix. *)
Definition district_of (csv_path : str) : str :=
  let filename := basename csv_path in
  replace (lit "-photo-links.csv") [] filename.

(** [download_tasks] after the whole table was read. *)
Definition build_tasks (csv_path output_dir : str)
    (reader : list (gmap (list N) (list N))) : list (list N * list N) :=
  let district := district_of csv_path in
  fold_left (fun download_tasks row => download_tasks ++ row_tasks district output_dir row)
            reader [].

(** *** Rows with [None] cells *)

(** For a line with fewer fields than the header, [csv.DictReader] stores
    [None] under the columns the line does not reach: a cell of a raw row is
    a text or [None].  The exceptions the row loop can raise on [None]. *)
Inductive PyError := AttributeError | TypeError.

(** [row.get(key, '')] on a raw row; the result [None] is Python's [None]. *)
Definition raw_get (row : gmap (list N) (option (list N))) (key : str) : option str :=
  match row !! key with
  | Some cell => cell
  | None => Some []
  end.

(** The body of the loop over the photo columns: [not drive_url] skips a
    [None] cell. *)
Definition column_tasks_raw
    (output_dir district_safe constituency polling_station_safe ps_type_safe : str)
    (row : gmap (list N) (option (list N))) (column : list N * list N)
    : list (list N * list N) :=
  let (col_name, photo_type) := column in
  match raw_get row col_name with
  | None => []
  | Some drive_url =>
      if is_blank drive_url then []
      else
        match extract_file_id drive_url with
        | None | Some [] => []
        | Some file_id =>
            let output_filename :=
              output_filename district_safe constituency polling_station_safe
                              ps_type_safe photo_type file_id in
            let output_path := path_join output_dir output_filename in
            [(file_id, output_path)]
        end
  end.

(** The body of [for row in reader] on a raw row: [None.strip()] raises at
    line 130 or 131, [re.match] on [None] at line 134. *)
Definition row_tasks_raw (district output_dir : str)
    (row : gmap (list N) (option (list N))) : PyError + list (list N * list N) :=
  let ac_name_full := raw_get row (lit "AC No. & AC Name") in
  match raw_get row (lit "Polling Station No.") with
  | None => inl AttributeError
  | Some polling_station =>
      let polling_station := strip polling_station in
      match raw_get row (lit "Polling Station Type") with
      | None => inl AttributeError
      | Some ps_type =>
          let ps_type := strip ps_type in
          match ac_name_full with
          | None => inl TypeError
          | Some ac_name_full =>
              let constituency := constituency_of ac_name_full in
              let constituency := sanitize_filename constituency in
              let district_safe := sanitize_filename district in
              let polling_station_safe := zfill 3 polling_station in
              let ps_type_safe := sanitize_filename ps_type in
              inr (flat_map
                     (column_tasks_raw output_dir district_safe constituency
                                       polling_station_safe ps_type_safe row)
                     photo_columns)
          end
      end
  end.

(** The loop over the rows: the first exception ends it. *)
Fixpoint rows_tasks_raw (district output_dir : str)
    (reader : list (gmap (list N) (option (list N))))
    (download_tasks : list (list N * list N)) : PyError + list (list N * list N) :=
  match reader with
  | [] => inr download_tasks
  | row :: rest =>
      match row_tasks_raw district output_dir row with
      | inl e => inl e
      | inr tasks => rows_tasks_raw district output_dir rest (download_tasks ++ tasks)
      end
  end.

Definition build_tasks_raw (csv_path output_dir : str)
    (reader : list (gmap (list N) (option (list N)))) : PyError + list (list N * list N) :=
  rows_tasks_raw (district_of csv_path) output_dir reader [].

(** *** [str.lower] and the classification of the diagnostic *)

Definition lower_char (before : str) (c : N) (after : str) : str :=
  if is_upper c then [c + 32]
  else if c <? 128 then [c]
  else uni_lower before c after.

Fixpoint lower_from (before s : str) : str :=
  match s with
  | [] => []
  | c :: rest => lower_char before c rest ++ lower_from (c :: before) rest
  end.

Definition lower (s : str) : str := lower_from [] s.

(** Lines 73 and 74: the test on [result.stderr]. *)
Definition is_rate_limited (stderr : str) : bool :=
  let error_msg := match stderr with [] => [] | _ => lower stderr end in
  contains (lit "quota") error_msg || contains (lit "limit") error_msg
  || contains (lit "too many") error_msg.

End Unicode.

(** ** The world of [download_file] *)

Inductive Outcome := Success | Skipped | Error.

(** What one [subprocess.run] of the transport does: it returns with a
    status and a diagnostic, runs into the timeout, or raises another
    exception; each time it leaves a filesystem behind. *)
Inductive RunResult :=
| Completed (returncode : Z) (stderr : list N) (fs' : gmap (list N) N)
| TimeoutExpired (fs' : gmap (list N) N)
| Raised (fs' : gmap (list N) N).

(** The waits of the executor; the random part of a duration is not
    modelled, the policy that chose it is. *)
Inductive Delay :=
| Jitter                      (* uniform(0.5, 2.0) before the first attempt *)
| Backoff (attempt : nat)     (* 2 ** attempt * (1 + random()) *)
| RetryPause                  (* 1 + random() *)
| TimeoutPause.               (* 2 *)

Inductive Message :=
| MsgDone | MsgRateLimit | MsgFailedAfter | MsgTimeoutRetry | MsgTimeout | MsgError.

Inductive Event :=
| Slept (d : Delay)
| Ran (cmd : list (list N))
| Removed (path : list N)
| Printed (m : Message).

(** Files are a map from path to size in bytes. *)
Record World := mkWorld {
  fs : gmap (list N) N;
  calls : nat;
  trace : list Event
}.

Definition emit (e : Event) (w : World) : World :=
  mkWorld (fs w) (calls w) (trace w ++ [e]).

Definition sleep (d : Delay) (w : World) : World := emit (Slept d) w.

Definition print (m : Message) (w : World) : World := emit (Printed m) w.

(** [os.remove(path)]. *)
Definition remove (path : str) (w : World) : World :=
  emit (Removed path) (mkWorld (delete path (fs w)) (calls w) (trace w)).

(** The transport: what invocation number [k] of the run does with a
    command line on a filesystem. *)
Definition Transport := nat -> list (list N) -> gmap (list N) N -> RunResult.

Definition fs_after (r : RunResult) : gmap (list N) N :=
  match r with
  | Completed _ _ fs' | TimeoutExpired fs' | Raised fs' => fs'
  end.

(** [subprocess.run(cmd, ...)] as a step of the world. *)
Definition subprocess_run (transport : Transport) (cmd : list (list N)) (w : World)
    : RunResult * World :=
  let r := transport (calls w) cmd (fs w) in
  (r, mkWorld (fs_after r) (S (calls w)) (trace w ++ [Ran cmd])).

(** How an iteration of the retry loop ends. *)
Inductive Ctl := Return (o : Outcome) | Continue.

Section Executor.

Variable uni_lower : list N -> N -> list N -> list N.
Variable transport : Transport.

Definition gdown_cmd (file_id output_path : str) : list (list N) :=
  [ lit "gdown"; lit "https://drive.google.com/uc?id=" ++ file_id; lit "-O";
    output_path; lit "--quiet" ].

(** Lines 72 to 88: the classification of a failed attempt. *)
Definition after_failure (stderr : str) (max_retries attempt : nat) (w : World)
    : Ctl * World :=
  if is_rate_limited uni_lower stderr then
    let w := print MsgRateLimit w in
    let w := sleep (Backoff attempt) w in
    (Continue, w)
  else if (Z.of_nat attempt <? Z.of_nat max_retries - 1)%Z then
    (Continue, sleep RetryPause w)
  else
    (Return Error, print MsgFailedAfter w).

(** The body of [for attempt in range(max_retries)].  [os.path.getsize] and
    [os.remove] are applied to a file that was just seen to exist. *)
Definition attempt_body (file_id output_path : str) (max_retries attempt : nat)
    (w : World) : Ctl * World :=
  let cmd := gdown_cmd file_id output_path in
  match subprocess_run transport cmd w with
  | (Completed returncode stderr _, w) =>
      if (returncode =? 0)%Z then
        match fs w !! output_path with
        | Some size =>
            if 0 <? size then (Return Success, print MsgDone w)
            else after_failure stderr max_retries attempt (remove output_path w)
        | None => after_failure stderr max_retries attempt w
        end
      else after_failure stderr max_retries attempt w
  | (TimeoutExpired _, w) =>
      if (Z.of_nat attempt <? Z.of_nat max_retries - 1)%Z then
        let w := print MsgTimeoutRetry w in
        let w := sleep TimeoutPause w in
        (Continue, w)
      else (Return Error, print MsgTimeout w)
  | (Raised _, w) => (Return Error, print MsgError w)
  end.

(** The loop, with [remaining] iterations left; falling out of it is the
    last line of [download_file]. *)
Fixpoint attempts (file_id output_path : str) (max_retries : nat)
    (remaining attempt : nat) (w : World) : Outcome * World :=
  match remaining with
  | O => (Error, w)
  | S remaining' =>
      match attempt_body file_id output_path max_retries attempt w with
      | (Return o, w) => (o, w)
      | (Continue, w) =>
          attempts file_id output_path max_retries remaining' (S attempt) w
      end
  end.

Definition download_file (file_id output_path : str) (max_retries : nat) (w : World)
    : Outcome * World :=
  match fs w !! output_path with
  | Some _ => (Skipped, w)
  | None =>
      let w := sleep Jitter w in
      attempts file_id output_path max_retries max_retries 0 w
  end.

Definition download_task (args : list N * list N) (w : World) : Outcome * World :=
  let (file_id, output_path) := args in
  download_file file_id output_path 3 w.

(** The tasks of [process_csv_file] run one after the other in the order of
    submission: the outcomes and the world they leave.  This is the pool
    with every task finished before the next one starts; the overlap of
    tasks in the three threads of the pool is not modelled, so what is
    proved about [run_tasks] speaks of the code where the overlap does not
    matter: the number of outcomes, and tasks whose destination exists
    before the run starts. *)
Fixpoint run_tasks (download_tasks : list (list N * list N)) (w : World)
    : list Outcome * World :=
  match download_tasks with
  | [] => ([], w)
  | task :: rest =>
      let (o, w) := download_task task w in
      let (os, w) := run_tasks rest w in
      (o :: os, w)
  end.

End Executor.

(** ** Counting the outcomes *)

Record Counts := mkCounts {
  downloaded_count : nat;
  skipped_count : nat;
  error_count : nat
}.

(** The body of [for future in as_completed(futures)]. *)
Definition tally (c : Counts) (result : Outcome) : Counts :=
  match result with
  | Success => mkCounts (downloaded_count c + 1) (skipped_count c) (error_count c)
  | Skipped => mkCounts (downloaded_count c) (skipped_count c + 1) (error_count c)
  | Error => mkCounts (downloaded_count c) (skipped_count c) (error_count c + 1)
  end.

Definition count_outcomes (results : list Outcome) : Counts :=
  fold_left tally results (mkCounts 0 0 0).

Definition total (c : Counts) : nat :=
  (downloaded_count c + skipped_count c + error_count c)%nat.

(** The loop of [main] over the per-table results. *)
Definition add_counts (t c : Counts) : Counts :=
  mkCounts (downloaded_count t + downloaded_count c)
           (skipped_count t + skipped_count c)
           (error_count t + error_count c).

Section Pipeline.

Variable uni_alnum : N -> bool.
Variable uni_lower : list N -> N -> list N -> list N.
Variable transport : Transport.

(** [process_csv_file] on a table already read into rows. *)
Definition process_csv_file (csv_path output_dir : str)
    (reader : list (gmap (list N) (list N))) (w : World) : Counts * World :=
  let download_tasks := build_tasks uni_alnum csv_path output_dir reader in
  let (results, w) := run_tasks uni_lower transport download_tasks w in
  (count_outcomes results, w).

(** The loop of [main] over the tables found, each with its rows. *)
Fixpoint process_all (output_dir : str)
    (csv_files : list (list N * list (gmap (list N) (list N))))
    (totals : Counts) (w : World) : Counts * World :=
  match csv_files with
  | [] => (totals, w)
  | (csv_file, reader) :: rest =>
      let (c, w) := process_csv_file csv_file output_dir reader w in
      process_all output_dir rest (add_counts totals c) w
  end.

End Pipeline.

(** ** Specification-level definitions *)

(** The words of the sanitizer policy: of every run of underscores one is
    kept, so an underscore goes when the character before it is an
    underscore (the first character has none before it: the 0 stands for
    that). *)
Definition collapse_underscores (s : list N) : list N :=
  List.map snd
    (List.filter (fun pc => negb ((fst pc =? UNDERSCORE) && (snd pc =? UNDERSCORE)))
       (combine (0 :: s) s)).

(** The safe set of the sanitizer policy: alphanumeric, underscore, hyphen,
    dot. *)
Definition safe_char (uni_alnum : N -> bool) (c : N) : bool :=
  (if c <? 128 then is_ascii_alnum c else uni_alnum c)
  || (c =? UNDERSCORE) || (c =? HYPHEN) || (c =? DOT).

(** The number of tasks of all the tables. *)
Definition tasks_of_all (uni_alnum : N -> bool) (output_dir : list N)
    (csv_files : list (list N * list (gmap (list N) (list N)))) : nat :=
  list_sum
    (List.map (fun f => length (build_tasks uni_alnum f.1 output_dir f.2)) csv_files).

(** The text before the first opening bracket. *)
Definition text_before_bracket (s : list N) : list N :=
  span_class (fun c => negb (c =? LBRACKET)) s.

(** What a row contributes when the file of photo role [role] and
    identifier [id] is named [name role id]: one task for every photo
    column whose cell holds an identifier, in the declared order. *)
Definition tasks_named (name : list N -> list N -> list N) (output_dir : list N)
    (row : gmap (list N) (list N)) : list (list N * list N) :=
  flat_map
    (fun column : list N * list N =>
       match extract_file_id (row_get row column.1) with
       | Some id => [(id, path_join output_dir (name column.2 id))]
       | None => []
       end)
    photo_columns.

(** The file name as the naming convention words it: batch label
    (sanitized), text before the first bracket of the composite field
    (trimmed, sanitized), station number (trimmed, padded), station type
    (sanitized), role code, identifier. *)
Definition convention_filename (uni_alnum : N -> bool)
    (batch_label composite station_number station_type role id : list N) : list N :=
  sanitize_filename uni_alnum batch_label ++ lit "-"
  ++ sanitize_filename uni_alnum (strip (text_before_bracket composite))
  ++ lit "-PS" ++ zfill 3 (strip station_number) ++ lit "-"
  ++ sanitize_filename uni_alnum station_type ++ lit "-" ++ role ++ lit "-" ++ id
  ++ lit ".jpg".

(** The file name the builder gives: the sub-region label is 'Unknown'
    when there is no text before the first bracket, and the station type is
    trimmed before it is sanitized. *)
Definition built_filename (uni_alnum : N -> bool)
    (batch_label composite station_number station_type role id : list N) : list N :=
  sanitize_filename uni_alnum batch_label ++ lit "-"
  ++ (match text_before_bracket composite with
      | [] => lit "Unknown"
      | before => sanitize_filename uni_alnum (strip before)
      end)
  ++ lit "-PS" ++ zfill 3 (strip station_number) ++ lit "-"
  ++ sanitize_filename uni_alnum (strip station_type) ++ lit "-" ++ role ++ lit "-" ++ id
  ++ lit ".jpg".

(** Tables for closed examples, whose texts are ASCII. *)
Definition ascii_alnum_only : N -> bool := fun _ => false.
Definition ascii_lower_only : list N -> N -> list N -> list N := fun _ c _ => [c].

(** The row of the file name scenario, and two variants of it. *)
Definition row_bagaha : gmap (list N) (list N) :=
  <[lit "AC No. & AC Name" := lit "4-Bagaha [1-Paschim Champaran]"]>
  (<[lit "Polling Station No." := lit "7"]>
  (<[lit "Polling Station Type" := lit "Auxiliary"]>
  (<[lit "Photo of Polling Station Building (PSB)" :=
       lit "https://drive.google.com/open?id=ABC123"]> ∅))).

Definition row_no_region : gmap (list N) (list N) :=
  <[lit "AC No. & AC Name" := []]> row_bagaha.

Definition row_bracket_first : gmap (list N) (list N) :=
  <[lit "AC No. & AC Name" := lit "[1-Paschim Champaran]"]> row_bagaha.

Definition row_padded_type : gmap (list N) (list N) :=
  <[lit "Polling Station Type" := lit " Auxiliary"]> row_bagaha.

(** The row of the line 'https://drive.google.com/open?id=ABC123,' under the
    header 'Photo of Polling Station Building (PSB),AC No. & AC Name,Polling
    Station No.,Polling Station Type': the line ends after the composite
    field, which is empty. *)
Definition short_line_row : gmap (list N) (option (list N)) :=
  <[lit "Photo of Polling Station Building (PSB)" :=
      Some (lit "https://drive.google.com/open?id=ABC123")]>
  (<[lit "AC No. & AC Name" := Some []]>
  (<[lit "Polling Station No." := None]>
  (<[lit "Polling Station Type" := None]> ∅))).

Definition rate_limit_terms : list (list N) :=
  [lit "quota"; lit "limit"; lit "too many"].

(** The text holds one of the rate-limit terms. *)
Definition mentions_rate_limit (text : list N) : Prop :=
  exists term pre post, In term rate_limit_terms /\ text = pre ++ term ++ post.

(** Characters [str.lower] leaves alone: ASCII, not upper case. *)
Definition lower_fixed (c : N) : bool := (c <? 128) && negb (is_upper c).

(** Status zero, the file is there, and it is not empty. *)
Definition fetched_ok (returncode : Z) (output_path : list N) (files : gmap (list N) N) : bool :=
  (returncode =? 0)%Z &&
  match files !! output_path with
  | Some size => 0 <? size
  | None => false
  end.

(** Status zero and an empty file at the destination. *)
Definition zero_byte (returncode : Z) (output_path : list N) (files : gmap (list N) N) : bool :=
  (returncode =? 0)%Z &&
  match files !! output_path with
  | Some size => size =? 0
  | None => false
  end.

(** The world right after invocation [calls w] returned [r]. *)
Definition ran (cmd : list (list N)) (r : RunResult) (w : World) : World :=
  mkWorld (fs_after r) (S (calls w)) (trace w ++ [Ran cmd]).

(** An invocation that fails with a diagnostic naming a rate limit. *)
Definition rate_limit_failure (output_path : list N) (r : RunResult) : Prop :=
  exists returncode stderr files,
    r = Completed returncode stderr files
    /\ fetched_ok returncode output_path files = false
    /\ mentions_rate_limit stderr.

(** An invocation that reports a failure of the other kind: it returns, the
    file was not fetched, and the diagnostic, read in lower case as the
    executor reads it, names no rate limit. *)
Definition generic_failure (uni_lower : list N -> N -> list N -> list N)
    (output_path : list N) (r : RunResult) : Prop :=
  exists returncode stderr files,
    r = Completed returncode stderr files
    /\ fetched_ok returncode output_path files = false
    /\ ~ mentions_rate_limit (lower uni_lower stderr).

(** An invocation that succeeds and leaves a non-empty file. *)
Definition fetch_success (output_path : list N) (r : RunResult) : Prop :=
  exists stderr files size,
    r = Completed 0 stderr files /\ files !! output_path = Some size /\ 0 < size.

(** Transport stubs and a start world for closed examples. *)
Definition cmd_output_path (cmd : list (list N)) : list N := nth 3 cmd [].

Definition limited_stub : Transport :=
  fun _ _ files => Completed 1 (lit "Download quota exceeded") files.

Definition flaky_stub : Transport :=
  fun k cmd files =>
    match k with
    | O => Completed 1 (lit "Connection reset by peer") files
    | _ => Completed 0 [] (<[cmd_output_path cmd := 2048]> files)
    end.

Definition empty_world : World := mkWorld ∅ 0 [].

Definition empty_file_stub : Transport :=
  fun _ cmd files => Completed 0 [] (<[cmd_output_path cmd := 0]> files).

(** An invocation after which the loop may go on: a timeout, or a return
    without a fetched file. *)
Definition retryable (output_path : list N) (r : RunResult) : Prop :=
  (exists files, r = TimeoutExpired files)
  \/ (exists returncode stderr files,
        r = Completed returncode stderr files
        /\ fetched_ok returncode output_path files = false).

Definition raising_stub : Transport := fun _ _ files => Raised files.

Definition timeout_stub : Transport := fun _ _ files => TimeoutExpired files.






(** What [os.path.join] puts before a relative name. *)
Definition join_prefix_of (a : list N) : list N :=
  match a with
  | [] => []
  | _ => if N.eqb (List.last a 0) SLASH then a else a ++ [SLASH]
  end.

(** The suffix of the names of the tables. *)
Definition PHOTO_LINKS_SUFFIX : list N := lit "-photo-links.csv".

(** The number of outcomes of one kind in a list. *)
Definition occurrences (o : Outcome) (results : list Outcome) : nat :=
  length (List.filter (fun r => match o, r with
                                | Success, Success | Skipped, Skipped | Error, Error => true
                                | _, _ => false
                                end) results).

(** The transport changes no file but the one its command line names as
    output. *)
Definition touches_only_output (transport : Transport) : Prop :=
  forall k cmd (files : gmap (list N) N) (p : list N),
    p <> cmd_output_path cmd -> fs_after (transport k cmd files) !! p = files !! p.

(** The command lines run, the paths removed and the waits recorded in a
    list of events, each in the order of the events. *)
Definition runs_of (events : list Event) : list (list (list N)) :=
  flat_map (fun e => match e with Ran cmd => [cmd] | _ => [] end) events.

Definition removed_of (events : list Event) : list (list N) :=
  flat_map (fun e => match e with Removed p => [p] | _ => [] end) events.



(** The lower-case form of an ASCII letter; other characters as they are. *)
Definition to_lower_ascii (c : N) : N := if is_upper c then c + 32 else c.

(** ** Facts on the string operations *)

Lemma startswith_app p s : startswith p (p ++ s) = true.
Proof. induction p as [|a p IH]; simpl; [reflexivity|]. rewrite N.eqb_refl. exact IH. Qed.

Lemma startswith_inv p s : startswith p s = true -> exists post, s = p ++ post.
Proof.
  revert s. induction p as [|a p IH]; intros s; simpl.
  - exists s. reflexivity.
  - destruct s as [|b s]; [discriminate|].
    destruct (a =? b) eqn:E; [|discriminate]. simpl.
    apply N.eqb_eq in E. subst b. intros H. destruct (IH _ H) as [post ->].
    exists post. reflexivity.
Qed.

Lemma contains_infix needle hay :
  contains needle hay = true <-> exists pre post, hay = pre ++ needle ++ post.
Proof.
  split.
  - induction hay as [|c hay IH]; simpl.
    + rewrite orb_false_r. intros H. apply startswith_inv in H.
      destruct H as [post H]. exists [], post. exact H.
    + intros H. apply orb_true_iff in H. destruct H as [H|H].
      * apply startswith_inv in H. destruct H as [post H]. exists [], post. exact H.
      * destruct (IH H) as (pre & post & ->). exists (c :: pre), post. reflexivity.
  - intros (pre & post & ->). induction pre as [|c pre IH].
    + assert (H := startswith_app needle post). simpl.
      destruct (needle ++ post); simpl; rewrite H; reflexivity.
    + simpl. rewrite IH. apply orb_true_r.
Qed.

Section SanitizeFacts.
Variable uni_alnum : N -> bool.
Local Abbreviation sanitize := (sanitize_filename uni_alnum).
Local Abbreviation unsafe := (is_unsafe uni_alnum).

Lemma underscore_safe : unsafe UNDERSCORE = false.
Proof. reflexivity. Qed.

Lemma sub_unsafe_safe x : Forall (fun c => unsafe c = false) (sub_unsafe uni_alnum x).
Proof.
  induction x as [|c x IH]; simpl; constructor; auto.
  destruct (unsafe c) eqn:E; [apply underscore_safe | exact E].
Qed.

Lemma sub_unsafe_id x : Forall (fun c => unsafe c = false) x -> sub_unsafe uni_alnum x = x.
Proof.
  induction 1 as [|c x Hc _ IH]; simpl; [reflexivity|].
  rewrite Hc. f_equal. exact IH.
Qed.

Lemma sub_runs_Forall (P : N -> Prop) b x : Forall P x -> Forall P (sub_runs b x).
Proof.
  intros H. revert b. induction H as [|c x Hc _ IH]; intros b; simpl; [constructor|].
  destruct (c =? UNDERSCORE) eqn:E.
  - apply N.eqb_eq in E. subst c. destruct b; [apply IH | constructor; [exact Hc | apply IH]].
  - constructor; auto.
Qed.

Lemma sub_runs_idem x :
  sub_runs false (sub_runs false x) = sub_runs false x
  /\ sub_runs true (sub_runs true x) = sub_runs true x
  /\ sub_runs false (sub_runs true x) = sub_runs true x.
Proof.
  induction x as [|c x (IH1 & IH2 & IH3)]; simpl; [auto|].
  destruct (c =? UNDERSCORE) eqn:E; simpl.
  - rewrite IH2. auto.
  - rewrite E, IH1. auto.
Qed.

Lemma sub_runs_collapse_gen prev x :
  sub_runs (prev =? UNDERSCORE) x =
  List.map snd
    (List.filter (fun pc => negb ((fst pc =? UNDERSCORE) && (snd pc =? UNDERSCORE)))
       (combine (prev :: x) x)).
Proof.
  revert prev. induction x as [|c x IH]; intros prev; [reflexivity|].
  change (combine (prev :: c :: x) (c :: x)) with ((prev, c) :: combine (c :: x) x).
  cbn [sub_runs List.filter fst snd].
  destruct (c =? UNDERSCORE) eqn:E, (prev =? UNDERSCORE);
    cbn [andb negb List.map snd]; rewrite <- (IH c), E;
    try reflexivity.
  apply N.eqb_eq in E. rewrite E. reflexivity.
Qed.

Lemma sub_runs_true_head x r : sub_runs true x <> UNDERSCORE :: r.
Proof.
  induction x as [|c x IH]; simpl; [discriminate|].
  destruct (c =? UNDERSCORE) eqn:E; [exact IH|].
  intros H. injection H as -> _. discriminate E.
Qed.

Lemma sub_runs_no_double b x pre post :
  sub_runs b x <> pre ++ UNDERSCORE :: UNDERSCORE :: post.
Proof.
  revert b pre. induction x as [|c x IH]; intros b pre; simpl.
  - destruct pre; discriminate.
  - destruct (c =? UNDERSCORE) eqn:E.
    + destruct b; [apply IH|].
      destruct pre as [|p pre]; simpl; intros H; injection H as H.
      * exact (sub_runs_true_head _ _ H).
      * exact (IH _ _ H0).
    + destruct pre as [|p pre]; simpl; intros H; injection H as H.
      * subst c. discriminate E.
      * exact (IH _ _ H0).
Qed.

Lemma is_unsafe_safe_char c : unsafe c = negb (safe_char uni_alnum c).
Proof. unfold is_unsafe, is_word, safe_char. reflexivity. Qed.

Lemma sanitize_safe x : Forall (fun c => unsafe c = false) (sanitize x).
Proof. apply sub_runs_Forall, sub_unsafe_safe. Qed.

Lemma sanitize_idem x : sanitize (sanitize x) = sanitize x.
Proof.
  unfold sanitize_filename at 1.
  rewrite (sub_unsafe_id (sanitize x)) by apply sanitize_safe.
  apply sub_runs_idem.
Qed.

End SanitizeFacts.

(** C8: [sanitize_filename] replaces every character outside the safe set
    (alphanumeric, underscore, hyphen, dot) by an underscore and then keeps
    one underscore of every run of them; its result has only safe
    characters and no two underscores in a row; it is idempotent; and
    'Paschim Champaran' becomes 'Paschim_Champaran'. *)
Theorem C8_sanitize_filename_policy (uni_alnum : N -> bool) :
  (forall x : list N,
      sanitize_filename uni_alnum x =
      collapse_underscores
        (List.map (fun c => if safe_char uni_alnum c then c else UNDERSCORE) x))
  /\ (forall x : list N,
        Forall (fun c => safe_char uni_alnum c = true) (sanitize_filename uni_alnum x))
  /\ (forall x : list N,
        contains [UNDERSCORE; UNDERSCORE] (sanitize_filename uni_alnum x) = false)
  /\ (forall x : list N,
        sanitize_filename uni_alnum (sanitize_filename uni_alnum x) =
        sanitize_filename uni_alnum x)
  /\ sanitize_filename uni_alnum (lit "Paschim Champaran") = lit "Paschim_Champaran".
Proof.
  repeat split.
  - intros x. unfold sanitize_filename, collapse_underscores.
    rewrite <- (sub_runs_collapse_gen 0). unfold sub_unsafe. simpl.
    f_equal. apply map_ext. intros c. rewrite is_unsafe_safe_char.
    destruct (safe_char uni_alnum c); reflexivity.
  - intros x. eapply Forall_impl; [apply sanitize_safe|].
    intros c. simpl. rewrite is_unsafe_safe_char.
    destruct (safe_char uni_alnum c); [reflexivity | discriminate].
  - intros x. destruct (contains _ _) eqn:E; [|reflexivity].
    apply contains_infix in E. destruct E as (pre & post & E).
    exfalso. exact (sub_runs_no_double _ _ _ _ E).
  - apply sanitize_idem.
Qed.


(** ** [extract_file_id] *)

Lemma lstrip_nil s : lstrip s = [] -> Forall (fun c => is_space c = true) s.
Proof.
  induction s as [|c s IH]; simpl; [constructor|].
  destruct (is_space c) eqn:E; [|discriminate].
  intros H. constructor; auto.
Qed.

Lemma lstrip_head s c r : lstrip s = c :: r -> is_space c = false.
Proof.
  induction s as [|a s IH]; simpl; [discriminate|].
  destruct (is_space a) eqn:E; [exact IH|].
  intros H. injection H as <- _. exact E.
Qed.

Lemma lstrip_spaces s : Forall (fun c => is_space c = true) s -> lstrip s = [].
Proof. induction 1 as [|c s Hc _ IH]; simpl; [reflexivity|]. rewrite Hc. exact IH. Qed.

Lemma strip_nil s : strip s = [] -> Forall (fun c => is_space c = true) s.
Proof.
  unfold strip, rstrip. intros H.
  apply (f_equal (@rev N)) in H. rewrite rev_involutive in H. simpl in H.
  apply lstrip_nil, Forall_rev in H. rewrite rev_involutive in H.
  destruct (lstrip s) as [|c r] eqn:E; [apply lstrip_nil, E|].
  apply lstrip_head in E. inversion H; congruence.
Qed.

Lemma is_blank_spaces s : is_blank s = true -> Forall (fun c => is_space c = true) s.
Proof.
  destruct s as [|c s]; [constructor|].
  unfold is_blank. destruct (strip (c :: s)) eqn:E; [|discriminate].
  intros _. apply strip_nil, E.
Qed.

Lemma search_lit_group_spaces a l cls s :
  is_space a = false ->
  Forall (fun c => is_space c = true) s ->
  search_lit_group (a :: l) cls s = None.
Proof.
  intros Ha. induction 1 as [|c s Hc _ IH]; [reflexivity|].
  simpl. unfold match_lit_group. simpl.
  destruct (a =? c) eqn:E; [apply N.eqb_eq in E; congruence|].
  simpl. exact IH.
Qed.

Lemma span_class_split cls s :
  exists post,
    s = span_class cls s ++ post
    /\ Forall (fun c => cls c = true) (span_class cls s)
    /\ match post with [] => True | c :: _ => cls c = false end.
Proof.
  induction s as [|c s (post & H1 & H2 & H3)]; simpl.
  - exists []. auto.
  - destruct (cls c) eqn:E.
    + exists post. simpl. split; [congruence|]. split; [constructor; assumption|exact H3].
    + exists (c :: s). auto.
Qed.

Lemma startswith_drop l s : startswith l s = true -> s = l ++ drop (length l) s.
Proof.
  revert s. induction l as [|a l IH]; intros s; simpl; [reflexivity|].
  destruct s as [|b s]; [discriminate|].
  destruct (a =? b) eqn:E; [|discriminate]. apply N.eqb_eq in E. subst b. simpl.
  intros H. f_equal. apply IH, H.
Qed.

(** What a match yields: the literal stands in the text, group 1 follows it,
    is not empty, lies in the class, and ends where the class ends. *)
Lemma search_lit_group_sound l cls s g :
  search_lit_group l cls s = Some g ->
  exists pre post,
    s = pre ++ l ++ g ++ post
    /\ g <> []
    /\ Forall (fun c => cls c = true) g
    /\ match post with [] => True | c :: _ => cls c = false end.
Proof.
  assert (Hm : forall t, match_lit_group l cls t = Some g ->
                 exists post, t = l ++ g ++ post /\ g <> []
                   /\ Forall (fun c => cls c = true) g
                   /\ match post with [] => True | c :: _ => cls c = false end).
  { intros t. unfold match_lit_group. destruct (startswith l t) eqn:S; [|discriminate].
    apply startswith_drop in S.
    destruct (span_class_split cls (drop (length l) t)) as (post & H1 & H2 & H3).
    destruct (span_class cls (drop (length l) t)) as [|c r] eqn:E; [discriminate|].
    intros [= <-]. exists post. split; [congruence|]. split; [discriminate|]. auto. }
  induction s as [|c s IH]; simpl.
  - destruct (match_lit_group l cls []) eqn:E; [|discriminate].
    intros [= ->]. destruct (Hm _ E) as (post & H). exists [], post. exact H.
  - destruct (match_lit_group l cls (c :: s)) eqn:E.
    + intros [= ->]. destruct (Hm _ E) as (post & H). exists [], post. exact H.
    + intros H. destruct (IH H) as (pre & post & -> & H'). exists (c :: pre), post.
      split; [reflexivity|exact H'].
Qed.

Lemma blank_no_match s :
  is_blank s = true -> search_query_id s = None /\ search_path_id s = None.
Proof.
  intros H. apply is_blank_spaces in H.
  split; apply search_lit_group_spaces; auto.
Qed.

(** C4: [extract_file_id] is the ordered choice of the two patterns: the
    query-parameter pattern first, the path-segment pattern only when the
    first one has no match, and not-found when both have none; the listed
    references give 'ABC123' and 'XYZ_9-8'; the empty string and
    unrecognized text give not-found. *)
Theorem C4_extract_file_id_ordered :
  (forall s : list N,
      extract_file_id s =
      match search_query_id s with
      | Some g => Some g
      | None => search_path_id s
      end)
  /\ extract_file_id (lit "https://host/open?id=ABC123") = Some (lit "ABC123")
  /\ extract_file_id (lit "https://host/file/d/XYZ_9-8/view") = Some (lit "XYZ_9-8")
  /\ extract_file_id (lit "https://host/file/d/XYZ_9-8/view?id=ABC123") = Some (lit "ABC123")
  /\ extract_file_id [] = None
  /\ extract_file_id (lit "   ") = None
  /\ extract_file_id (lit "no photo available") = None.
Proof.
  split; [|repeat split].
  intros s. unfold extract_file_id.
  destruct (is_blank s) eqn:B.
  - apply blank_no_match in B. destruct B as [-> ->]. reflexivity.
  - destruct (search_query_id s); [reflexivity|].
    destruct (search_path_id s); reflexivity.
Qed.

(** ** Counting *)

Lemma total_tally c o : total (tally c o) = S (total c).
Proof. destruct o; unfold total; simpl; lia. Qed.

Lemma total_fold_tally rs c : total (fold_left tally rs c) = (total c + length rs)%nat.
Proof.
  revert c. induction rs as [|o rs IH]; intros c; simpl; [lia|].
  rewrite IH, total_tally. lia.
Qed.

Lemma total_count_outcomes rs : total (count_outcomes rs) = length rs.
Proof. unfold count_outcomes. rewrite total_fold_tally. reflexivity. Qed.

Lemma total_add_counts t c : total (add_counts t c) = (total t + total c)%nat.
Proof. unfold total, add_counts. simpl. lia. Qed.

Lemma tally_comm c a b : tally (tally c a) b = tally (tally c b) a.
Proof. destruct a, b; reflexivity. Qed.

(** The counts do not depend on the order in which the outcomes arrive. *)
Lemma count_outcomes_Permutation rs rs' :
  Permutation rs rs' -> count_outcomes rs = count_outcomes rs'.
Proof.
  unfold count_outcomes. generalize (mkCounts 0 0 0).
  intros c H. revert c.
  induction H as [|o l l' _ IH|a b l|l l' l'' _ IH1 _ IH2]; intros c; simpl.
  - reflexivity.
  - apply IH.
  - rewrite tally_comm. reflexivity.
  - rewrite IH1. apply IH2.
Qed.

Section PipelineFacts.
Variable uni_alnum : N -> bool.
Variable uni_lower : list N -> N -> list N -> list N.
Variable transport : Transport.

Lemma run_tasks_length tasks w :
  length (run_tasks uni_lower transport tasks w).1 = length tasks.
Proof.
  revert w. induction tasks as [|t tasks IH]; intros w; simpl; [reflexivity|].
  destruct (download_task uni_lower transport t w) as [o w1].
  specialize (IH w1).
  destruct (run_tasks uni_lower transport tasks w1) as [os w2].
  simpl in *. congruence.
Qed.

Lemma process_csv_file_total csv_path output_dir reader w :
  total (process_csv_file uni_alnum uni_lower transport csv_path output_dir reader w).1
  = length (build_tasks uni_alnum csv_path output_dir reader).
Proof.
  unfold process_csv_file.
  pose proof (run_tasks_length (build_tasks uni_alnum csv_path output_dir reader) w) as H.
  destruct (run_tasks uni_lower transport _ w) as [results w1].
  simpl in *. rewrite total_count_outcomes. exact H.
Qed.

Lemma process_all_total output_dir csv_files totals w :
  total (process_all uni_alnum uni_lower transport output_dir csv_files totals w).1
  = (total totals + tasks_of_all uni_alnum output_dir csv_files)%nat.
Proof.
  revert totals w. induction csv_files as [|[csv_file reader] rest IH]; intros totals w.
  - unfold tasks_of_all. simpl. lia.
  - simpl.
    pose proof (process_csv_file_total csv_file output_dir reader w) as H.
    destruct (process_csv_file uni_alnum uni_lower transport csv_file output_dir reader w)
      as [c w1].
    rewrite IH, total_add_counts. unfold tasks_of_all in *. simpl in *. lia.
Qed.

End PipelineFacts.

(** C7: after the outcomes of a table's tasks are folded, downloaded +
    skipped + errors is the number of tasks folded, for any list of
    outcomes and so for the outcomes [download_file] returns for the tasks
    of a table; the grand total over all tables equals the number of all
    their tasks.  [download_file] is a total function into the three
    outcomes. *)
Theorem C7_counts_sum_to_tasks
    (uni_alnum : N -> bool) (uni_lower : list N -> N -> list N -> list N)
    (transport : Transport) :
  (forall results : list Outcome,
      (downloaded_count (count_outcomes results)
       + skipped_count (count_outcomes results)
       + error_count (count_outcomes results))%nat = length results)
  /\ (forall tasks w,
        length (run_tasks uni_lower transport tasks w).1 = length tasks)
  /\ (forall csv_path output_dir reader w,
        let c := (process_csv_file uni_alnum uni_lower transport
                                   csv_path output_dir reader w).1 in
        (downloaded_count c + skipped_count c + error_count c)%nat
        = length (build_tasks uni_alnum csv_path output_dir reader))
  /\ (forall output_dir csv_files w,
        let t := (process_all uni_alnum uni_lower transport output_dir csv_files
                              (mkCounts 0 0 0) w).1 in
        (downloaded_count t + skipped_count t + error_count t)%nat
        = tasks_of_all uni_alnum output_dir csv_files).
Proof.
  repeat split.
  - apply total_count_outcomes.
  - apply run_tasks_length.
  - intros. apply process_csv_file_total.
  - intros. subst t. apply (process_all_total uni_alnum uni_lower transport).
Qed.

(** ** The task builder *)

Lemma match_lit_group_nonempty l cls s g : match_lit_group l cls s = Some g -> g <> [].
Proof.
  unfold match_lit_group. destruct (startswith l s); [|discriminate].
  destruct (span_class cls (drop (length l) s)); [discriminate|].
  intros H. injection H as <-. discriminate.
Qed.

Lemma search_lit_group_nonempty l cls s g : search_lit_group l cls s = Some g -> g <> [].
Proof.
  induction s as [|c s IH]; simpl.
  - destruct (match_lit_group l cls []) eqn:E; [|discriminate].
    intros H. injection H as <-. eapply match_lit_group_nonempty, E.
  - destruct (match_lit_group l cls (c :: s)) eqn:E; [|exact IH].
    intros H. injection H as <-. eapply match_lit_group_nonempty, E.
Qed.

Lemma extract_file_id_nonempty s g : extract_file_id s = Some g -> g <> [].
Proof.
  unfold extract_file_id. destruct (is_blank s); [discriminate|].
  destruct (search_query_id s) eqn:E1.
  - intros H. injection H as <-. eapply search_lit_group_nonempty, E1.
  - destruct (search_path_id s) eqn:E2; [|discriminate].
    intros H. injection H as <-. eapply search_lit_group_nonempty, E2.
Qed.

Lemma extract_file_id_blank s : is_blank s = true -> extract_file_id s = None.
Proof. unfold extract_file_id. intros ->. reflexivity. Qed.

Lemma text_before_bracket_split s :
  exists post,
    s = text_before_bracket s ++ post
    /\ Forall (fun c => c <> LBRACKET) (text_before_bracket s)
    /\ (post = [] \/ exists post', post = LBRACKET :: post').
Proof.
  unfold text_before_bracket. induction s as [|c s (post & H1 & H2 & H3)]; simpl.
  - exists []. auto.
  - destruct (c =? LBRACKET) eqn:E; simpl.
    + apply N.eqb_eq in E. subst c. exists (LBRACKET :: s). eauto.
    + exists post. split; [congruence|]. split; [|exact H3].
      constructor; [|exact H2]. intros ->. discriminate E.
Qed.

Lemma text_before_bracket_nil s :
  text_before_bracket s = [] <-> s = [] \/ exists rest, s = LBRACKET :: rest.
Proof.
  unfold text_before_bracket. destruct s as [|c s]; simpl.
  - split; auto.
  - destruct (c =? LBRACKET) eqn:E; simpl.
    + apply N.eqb_eq in E. subst c. split; eauto.
    + split; [discriminate|]. intros [H|[rest H]]; [discriminate|].
      injection H as -> _. discriminate E.
Qed.

Section BuilderFacts.
Variable uni_alnum : N -> bool.

Lemma column_tasks_named output_dir district_safe constituency station_safe type_safe row column :
  column_tasks output_dir district_safe constituency station_safe type_safe row column
  = match extract_file_id (row_get row column.1) with
    | Some id =>
        [(id, path_join output_dir
                (output_filename district_safe constituency station_safe type_safe
                                 column.2 id))]
    | None => []
    end.
Proof.
  destruct column as [col_name photo_type]. unfold column_tasks. simpl.
  destruct (is_blank (row_get row col_name)) eqn:B.
  - rewrite extract_file_id_blank by exact B. reflexivity.
  - destruct (extract_file_id (row_get row col_name)) as [[|c g]|] eqn:E; try reflexivity.
    apply extract_file_id_nonempty in E. congruence.
Qed.

Lemma row_tasks_named district output_dir row :
  row_tasks uni_alnum district output_dir row
  = tasks_named
      (built_filename uni_alnum district
         (row_get row (lit "AC No. & AC Name"))
         (row_get row (lit "Polling Station No."))
         (row_get row (lit "Polling Station Type")))
      output_dir row.
Proof.
  unfold row_tasks, tasks_named. apply flat_map_ext. intros column.
  rewrite column_tasks_named.
  destruct (extract_file_id (row_get row column.1)); [|reflexivity].
  do 3 f_equal. unfold output_filename, built_filename, constituency_of,
    match_before_bracket, text_before_bracket.
  destruct (span_class _ (row_get row (lit "AC No. & AC Name"))); reflexivity.
Qed.

End BuilderFacts.

(** C3, as worded, fails on two rows: with an empty composite field the
    builder writes the label 'Unknown' where the worded convention has an
    empty label, and a station type with a leading blank is trimmed by the
    builder where the worded convention only sanitizes it. *)
Lemma C3_convention_counterexample :
  (row_tasks ascii_alnum_only (lit "1-Paschim Champaran") (lit "photos") row_no_region
   = [(lit "ABC123",
       lit "photos/1-Paschim_Champaran-Unknown-PS007-Auxiliary-PSB-ABC123.jpg")]
   /\ tasks_named
        (convention_filename ascii_alnum_only (lit "1-Paschim Champaran")
           (row_get row_no_region (lit "AC No. & AC Name"))
           (row_get row_no_region (lit "Polling Station No."))
           (row_get row_no_region (lit "Polling Station Type")))
        (lit "photos") row_no_region
      = [(lit "ABC123",
          lit "photos/1-Paschim_Champaran--PS007-Auxiliary-PSB-ABC123.jpg")]
   /\ row_tasks ascii_alnum_only (lit "1-Paschim Champaran") (lit "photos") row_no_region
      <> tasks_named
           (convention_filename ascii_alnum_only (lit "1-Paschim Champaran")
              (row_get row_no_region (lit "AC No. & AC Name"))
              (row_get row_no_region (lit "Polling Station No."))
              (row_get row_no_region (lit "Polling Station Type")))
           (lit "photos") row_no_region)
  /\ (row_tasks ascii_alnum_only (lit "1-Paschim Champaran") (lit "photos") row_padded_type
      = [(lit "ABC123",
          lit "photos/1-Paschim_Champaran-4-Bagaha-PS007-Auxiliary-PSB-ABC123.jpg")]
      /\ tasks_named
           (convention_filename ascii_alnum_only (lit "1-Paschim Champaran")
              (row_get row_padded_type (lit "AC No. & AC Name"))
              (row_get row_padded_type (lit "Polling Station No."))
              (row_get row_padded_type (lit "Polling Station Type")))
           (lit "photos") row_padded_type
         = [(lit "ABC123",
             lit "photos/1-Paschim_Champaran-4-Bagaha-PS007-_Auxiliary-PSB-ABC123.jpg")]).
Proof.
  split; [split; [|split]|split]; try (vm_compute; reflexivity).
  vm_compute. discriminate.
Qed.

(** C3, amended: for every row the tasks are one per photo column that holds
    an identifier, in the declared order, and the file is named batch label
    (sanitized), sub-region label, 'PS' and the station number trimmed and
    zero-filled to width 3, station type (trimmed, sanitized), photo role
    code and identifier, joined by hyphens, with '.jpg'; the sub-region
    label is the text before the first '[' of the composite field, trimmed
    and sanitized, or 'Unknown' when there is no such text.  The scenario
    row gives '1-Paschim_Champaran-4-Bagaha-PS007-Auxiliary-PSB-ABC123.jpg'. *)
Theorem C3_built_filename (uni_alnum : N -> bool) :
  (forall district output_dir row,
      row_tasks uni_alnum district output_dir row
      = tasks_named
          (built_filename uni_alnum district
             (row_get row (lit "AC No. & AC Name"))
             (row_get row (lit "Polling Station No."))
             (row_get row (lit "Polling Station Type")))
          output_dir row)
  /\ (forall s : list N,
        exists post,
          s = text_before_bracket s ++ post
          /\ Forall (fun c => c <> LBRACKET) (text_before_bracket s)
          /\ (post = [] \/ exists post', post = LBRACKET :: post'))
  /\ row_tasks uni_alnum (lit "1-Paschim Champaran") (lit "photos") row_bagaha
     = [(lit "ABC123",
         lit "photos/1-Paschim_Champaran-4-Bagaha-PS007-Auxiliary-PSB-ABC123.jpg")]
  /\ build_tasks uni_alnum (lit "./1-Paschim Champaran-photo-links.csv") (lit "photos")
       [row_bagaha]
     = [(lit "ABC123",
         lit "photos/1-Paschim_Champaran-4-Bagaha-PS007-Auxiliary-PSB-ABC123.jpg")].
Proof.
  split; [|split; [|split]].
  - apply row_tasks_named.
  - apply text_before_bracket_split.
  - vm_compute. reflexivity.
  - vm_compute. reflexivity.
Qed.

(** A row of texts whose composite field is empty, absent, or begins with
    '[' gives one task for every photo column that holds an identifier, and
    the file names carry the sub-region label 'Unknown'. *)
Lemma unknown_label_of_text_row (uni_alnum : N -> bool) (district output_dir : list N)
    (row : gmap (list N) (list N)) :
  (row_get row (lit "AC No. & AC Name") = []
   \/ exists rest, row_get row (lit "AC No. & AC Name") = LBRACKET :: rest) ->
  row_tasks uni_alnum district output_dir row
  = tasks_named
      (fun role id =>
         sanitize_filename uni_alnum district ++ lit "-" ++ lit "Unknown" ++ lit "-PS"
         ++ zfill 3 (strip (row_get row (lit "Polling Station No."))) ++ lit "-"
         ++ sanitize_filename uni_alnum (strip (row_get row (lit "Polling Station Type")))
         ++ lit "-" ++ role ++ lit "-" ++ id ++ lit ".jpg")
      output_dir row
  /\ List.map fst (row_tasks uni_alnum district output_dir row)
     = flat_map
         (fun column : list N * list N =>
            match extract_file_id (row_get row column.1) with
            | Some id => [id]
            | None => []
            end)
         photo_columns.
Proof.
  intros H. apply text_before_bracket_nil in H.
  rewrite row_tasks_named. unfold built_filename. rewrite H. split; [reflexivity|].
  unfold tasks_named, photo_columns. simpl.
  repeat match goal with
         | |- context [extract_file_id ?s] => destruct (extract_file_id s)
         end; reflexivity.
Qed.

Lemma unknown_label_of_text_row_example :
  row_tasks ascii_alnum_only (lit "1-Paschim Champaran") (lit "photos") row_no_region
  = [(lit "ABC123",
      lit "photos/1-Paschim_Champaran-Unknown-PS007-Auxiliary-PSB-ABC123.jpg")]
  /\ row_tasks ascii_alnum_only (lit "1-Paschim Champaran") (lit "photos")
       row_bracket_first
     = [(lit "ABC123",
         lit "photos/1-Paschim_Champaran-Unknown-PS007-Auxiliary-PSB-ABC123.jpg")].
Proof.
  assert (H1 : row_get row_no_region (lit "AC No. & AC Name") = []
               \/ exists rest,
                    row_get row_no_region (lit "AC No. & AC Name") = LBRACKET :: rest)
    by (left; vm_compute; reflexivity).
  assert (H2 : row_get row_bracket_first (lit "AC No. & AC Name") = []
               \/ exists rest,
                    row_get row_bracket_first (lit "AC No. & AC Name")
                    = LBRACKET :: rest)
    by (right; exists (lit "1-Paschim Champaran]"); vm_compute; reflexivity).
  split.
  - rewrite (proj1 (unknown_label_of_text_row ascii_alnum_only (lit "1-Paschim Champaran")
                      (lit "photos") row_no_region H1)).
    vm_compute. reflexivity.
  - rewrite (proj1 (unknown_label_of_text_row ascii_alnum_only (lit "1-Paschim Champaran")
                      (lit "photos") row_bracket_first H2)).
    vm_compute. reflexivity.
Qed.

Section RawRows.
Variable uni_alnum : N -> bool.

Lemma raw_get_texts (row : gmap (list N) (list N)) (key : list N) :
  raw_get (Some <$> row) key = Some (row_get row key).
Proof.
  unfold raw_get, row_get. rewrite lookup_fmap.
  destruct (row !! key); reflexivity.
Qed.

(** On a row without [None] the raw row loop is the row loop on texts. *)
Lemma row_tasks_raw_texts (district output_dir : list N)
    (row : gmap (list N) (list N)) :
  row_tasks_raw uni_alnum district output_dir (Some <$> row)
  = inr (row_tasks uni_alnum district output_dir row).
Proof.
  unfold row_tasks_raw, row_tasks. rewrite !raw_get_texts. cbv zeta.
  f_equal. apply flat_map_ext. intros [col_name photo_type].
  unfold column_tasks_raw, column_tasks. rewrite raw_get_texts. reflexivity.
Qed.

Lemma rows_tasks_raw_texts (district output_dir : list N)
    (reader : list (gmap (list N) (list N))) (download_tasks : list (list N * list N)) :
  rows_tasks_raw uni_alnum district output_dir (List.map (fmap Some) reader) download_tasks
  = inr (fold_left
           (fun download_tasks row =>
              download_tasks ++ row_tasks uni_alnum district output_dir row)
           reader download_tasks).
Proof.
  revert download_tasks. induction reader as [|row reader IH]; intros download_tasks;
    simpl; [reflexivity|].
  rewrite row_tasks_raw_texts. apply IH.
Qed.

Lemma rows_tasks_raw_short_line (district output_dir : list N)
    (before : list (gmap (list N) (list N)))
    (row : gmap (list N) (option (list N)))
    (after : list (gmap (list N) (option (list N))))
    (download_tasks : list (list N * list N)) :
  raw_get row (lit "Polling Station No.") = None ->
  rows_tasks_raw uni_alnum district output_dir
    (List.map (fmap Some) before ++ row :: after) download_tasks
  = inl AttributeError.
Proof.
  intros H. revert download_tasks.
  induction before as [|r before IH]; intros download_tasks; simpl.
  - unfold row_tasks_raw. rewrite H. reflexivity.
  - rewrite row_tasks_raw_texts. apply IH.
Qed.

End RawRows.

(** X23: a table in which no line is shorter than the header has no [None]
    cell; reading it raises no exception, and its task list is the one of
    its rows of texts. *)
Theorem build_tasks_raw_texts (uni_alnum : N -> bool) (csv_path output_dir : list N)
    (reader : list (gmap (list N) (list N))) :
  build_tasks_raw uni_alnum csv_path output_dir (List.map (fmap Some) reader)
  = inr (build_tasks uni_alnum csv_path output_dir reader).
Proof. apply rows_tasks_raw_texts. Qed.

(** X24: one line that ends before the station number aborts the table:
    whatever rows of texts come before it and whatever rows come after it,
    reading the table raises AttributeError and gives no task at all. *)
Theorem short_line_aborts_table (uni_alnum : N -> bool) (csv_path output_dir : list N)
    (before : list (gmap (list N) (list N)))
    (row : gmap (list N) (option (list N)))
    (after : list (gmap (list N) (option (list N)))) :
  raw_get row (lit "Polling Station No.") = None ->
  build_tasks_raw uni_alnum csv_path output_dir
    (List.map (fmap Some) before ++ row :: after)
  = inl AttributeError.
Proof. intros H. apply rows_tasks_raw_short_line, H. Qed.

Lemma short_line_aborts_table_witness :
  build_tasks_raw ascii_alnum_only (lit "1-Paschim Champaran-photo-links.csv")
    (lit "photos")
    (List.map (fmap Some) [row_bagaha; row_no_region] ++ short_line_row
       :: [Some <$> row_bagaha])
  = inl AttributeError.
Proof.
  apply short_line_aborts_table. reflexivity.
Defined.

(** C10: the row loop raises on a row whose composite field is empty when
    the line ends there: the cells of station number and station type are
    [None], and [None.strip()] at line 130 raises AttributeError; no task is
    emitted for the row, and none for the table that holds it. *)
Theorem C10_short_line_raises :
  raw_get short_line_row (lit "AC No. & AC Name") = Some []
  /\ raw_get short_line_row (lit "Polling Station No.") = None
  /\ row_tasks_raw ascii_alnum_only (lit "1-Paschim Champaran") (lit "photos")
       short_line_row = inl AttributeError
  /\ build_tasks_raw ascii_alnum_only (lit "1-Paschim Champaran-photo-links.csv")
       (lit "photos") [Some <$> row_bagaha; short_line_row] = inl AttributeError.
Proof. repeat split. Qed.

(** ** The classification of the diagnostic *)

Section LowerFacts.
Variable uni_lower : list N -> N -> list N -> list N.

Lemma lower_from_app before x y :
  exists x',
    lower_from uni_lower before (x ++ y)
    = x' ++ lower_from uni_lower (rev x ++ before) y.
Proof.
  revert before. induction x as [|c x IH]; intros before; simpl.
  - exists []. reflexivity.
  - destruct (IH (c :: before)) as [x' ->].
    exists (lower_char uni_lower before c (x ++ y) ++ x').
    rewrite <- !app_assoc. reflexivity.
Qed.

Lemma lower_from_fixed before t y :
  forallb lower_fixed t = true ->
  lower_from uni_lower before (t ++ y) = t ++ lower_from uni_lower (rev t ++ before) y.
Proof.
  revert before. induction t as [|c t IH]; intros before; simpl; [reflexivity|].
  intros H. apply andb_true_iff in H. destruct H as [Hc Ht].
  unfold lower_fixed in Hc. apply andb_true_iff in Hc. destruct Hc as [H1 H2].
  unfold lower_char. apply negb_true_iff in H2. rewrite H1, H2. simpl.
  rewrite IH by exact Ht. rewrite <- app_assoc. reflexivity.
Qed.

(** A lower-case ASCII term of the text is still there after [lower]. *)
Lemma lower_keeps_term term pre post :
  forallb lower_fixed term = true ->
  exists pre' post', lower uni_lower (pre ++ term ++ post) = pre' ++ term ++ post'.
Proof.
  intros H. unfold lower.
  destruct (lower_from_app [] pre (term ++ post)) as [pre' ->].
  rewrite lower_from_fixed by exact H. eauto.
Qed.

Lemma is_rate_limited_contains stderr :
  is_rate_limited uni_lower stderr
  = contains (lit "quota") (lower uni_lower stderr)
    || contains (lit "limit") (lower uni_lower stderr)
    || contains (lit "too many") (lower uni_lower stderr).
Proof. destruct stderr; reflexivity. Qed.

Lemma is_rate_limited_iff stderr :
  is_rate_limited uni_lower stderr = true
  <-> mentions_rate_limit (lower uni_lower stderr).
Proof.
  rewrite is_rate_limited_contains, !orb_true_iff, !contains_infix.
  unfold mentions_rate_limit, rate_limit_terms. split.
  - intros [[(pre & post & H)|(pre & post & H)]|(pre & post & H)];
      eexists _, pre, post; (split; [|exact H]); simpl; auto.
  - intros (term & pre & post & Hin & H). simpl in Hin.
    destruct Hin as [<-|[<-|[<-|[]]]]; eauto.
Qed.

Lemma mentions_rate_limit_lower stderr :
  mentions_rate_limit stderr -> is_rate_limited uni_lower stderr = true.
Proof.
  intros (term & pre & post & Hin & ->). apply is_rate_limited_iff.
  assert (Hf : forallb lower_fixed term = true).
  { simpl in Hin. destruct Hin as [<-|[<-|[<-|[]]]]; reflexivity. }
  destruct (lower_keeps_term term pre post Hf) as (pre' & post' & H).
  exists term, pre', post'. auto.
Qed.

End LowerFacts.

(** ** The fetch executor *)

Section ExecutorFacts.
Variable uni_lower : list N -> N -> list N -> list N.
Variable transport : Transport.

Lemma after_failure_world stderr max_retries attempt w :
  calls (after_failure uni_lower stderr max_retries attempt w).2 = calls w
  /\ fs (after_failure uni_lower stderr max_retries attempt w).2 = fs w.
Proof.
  unfold after_failure. destruct (is_rate_limited uni_lower stderr); [split; reflexivity|].
  destruct (_ <? _)%Z; split; reflexivity.
Qed.

Lemma after_failure_not_success stderr max_retries attempt w :
  (after_failure uni_lower stderr max_retries attempt w).1 <> Return Success.
Proof.
  unfold after_failure. destruct (is_rate_limited uni_lower stderr); [discriminate|].
  destruct (_ <? _)%Z; discriminate.
Qed.

Lemma attempt_body_completed file_id output_path max_retries attempt w returncode stderr fs1 :
  transport (calls w) (gdown_cmd file_id output_path) (fs w)
    = Completed returncode stderr fs1 ->
  attempt_body uni_lower transport file_id output_path max_retries attempt w
  = let w1 := ran (gdown_cmd file_id output_path) (Completed returncode stderr fs1) w in
    if fetched_ok returncode output_path fs1 then (Return Success, print MsgDone w1)
    else after_failure uni_lower stderr max_retries attempt
           (if zero_byte returncode output_path fs1 then remove output_path w1 else w1).
Proof.
  intros H. unfold attempt_body, subprocess_run, fetched_ok, zero_byte, ran.
  rewrite H. simpl.
  destruct (returncode =? 0)%Z; simpl; [|reflexivity].
  destruct (fs1 !! output_path) as [size|]; [|reflexivity].
  destruct (0 <? size) eqn:E; [reflexivity|].
  apply N.ltb_ge in E. assert (size = 0) as -> by lia. reflexivity.
Qed.

Lemma attempt_body_timeout file_id output_path max_retries attempt w fs1 :
  transport (calls w) (gdown_cmd file_id output_path) (fs w) = TimeoutExpired fs1 ->
  attempt_body uni_lower transport file_id output_path max_retries attempt w
  = let w1 := ran (gdown_cmd file_id output_path) (TimeoutExpired fs1) w in
    if (Z.of_nat attempt <? Z.of_nat max_retries - 1)%Z
    then (Continue, sleep TimeoutPause (print MsgTimeoutRetry w1))
    else (Return Error, print MsgTimeout w1).
Proof.
  intros H. unfold attempt_body, subprocess_run, ran. rewrite H. reflexivity.
Qed.

Lemma attempt_body_raised file_id output_path max_retries attempt w fs1 :
  transport (calls w) (gdown_cmd file_id output_path) (fs w) = Raised fs1 ->
  attempt_body uni_lower transport file_id output_path max_retries attempt w
  = (Return Error, print MsgError (ran (gdown_cmd file_id output_path) (Raised fs1) w)).
Proof.
  intros H. unfold attempt_body, subprocess_run, ran. rewrite H. reflexivity.
Qed.

Lemma attempt_body_calls file_id output_path max_retries attempt w :
  calls (attempt_body uni_lower transport file_id output_path max_retries attempt w).2
  = S (calls w).
Proof.
  destruct (transport (calls w) (gdown_cmd file_id output_path) (fs w))
    as [rc err fs1|fs1|fs1] eqn:E.
  - rewrite (attempt_body_completed _ _ _ _ _ _ _ _ E). cbv zeta.
    destruct (fetched_ok rc output_path fs1); [reflexivity|].
    rewrite (proj1 (after_failure_world _ _ _ _)).
    destruct (zero_byte rc output_path fs1); reflexivity.
  - rewrite (attempt_body_timeout _ _ _ _ _ _ E). cbv zeta.
    destruct (_ <? _)%Z; reflexivity.
  - rewrite (attempt_body_raised _ _ _ _ _ _ E). reflexivity.
Qed.


End ExecutorFacts.

Section RetryFacts.
Variable uni_lower : list N -> N -> list N -> list N.
Variable transport : Transport.

Lemma attempt_body_rate_limited file_id output_path max_retries attempt w :
  rate_limit_failure output_path
    (transport (calls w) (gdown_cmd file_id output_path) (fs w)) ->
  exists w1,
    attempt_body uni_lower transport file_id output_path max_retries attempt w
    = (Continue, w1)
    /\ calls w1 = S (calls w).
Proof.
  intros (rc & err & files & E & Hf & Hm).
  pose proof (attempt_body_calls uni_lower transport file_id output_path
                max_retries attempt w) as Hc.
  rewrite (attempt_body_completed _ _ _ _ _ _ _ _ _ _ E) in *. cbv zeta in *.
  rewrite Hf in *. unfold after_failure in *.
  rewrite (mentions_rate_limit_lower uni_lower err Hm) in *.
  eexists. split; [reflexivity|exact Hc].
Qed.

Lemma attempts_rate_limited file_id output_path max_retries :
  (forall k files,
      rate_limit_failure output_path
        (transport k (gdown_cmd file_id output_path) files)) ->
  forall remaining attempt w,
  exists w',
    attempts uni_lower transport file_id output_path max_retries remaining attempt w
    = (Error, w')
    /\ calls w' = (calls w + remaining)%nat.
Proof.
  intros H. induction remaining as [|r IH]; intros attempt w; simpl.
  - exists w. split; [reflexivity|lia].
  - destruct (attempt_body_rate_limited file_id output_path max_retries attempt w
                (H _ _)) as (w1 & -> & Hc).
    destruct (IH (S attempt) w1) as (w' & -> & Hc').
    exists w'. split; [reflexivity|lia].
Qed.

Lemma attempt_body_generic file_id output_path max_retries attempt w :
  generic_failure uni_lower output_path
    (transport (calls w) (gdown_cmd file_id output_path) (fs w)) ->
  (S attempt < max_retries)%nat ->
  exists w1,
    attempt_body uni_lower transport file_id output_path max_retries attempt w
    = (Continue, w1)
    /\ calls w1 = S (calls w).
Proof.
  intros (rc & err & files & E & Hf & Hm) Hlt.
  pose proof (attempt_body_calls uni_lower transport file_id output_path
                max_retries attempt w) as Hc.
  rewrite (attempt_body_completed _ _ _ _ _ _ _ _ _ _ E) in *. cbv zeta in *.
  rewrite Hf in *. unfold after_failure in *.
  destruct (is_rate_limited uni_lower err) eqn:R.
  { apply is_rate_limited_iff in R. contradiction. }
  assert ((Z.of_nat attempt <? Z.of_nat max_retries - 1)%Z = true) as Hz
    by (apply Z.ltb_lt; lia).
  rewrite Hz in *. eexists. split; [reflexivity|exact Hc].
Qed.

Lemma attempt_body_success file_id output_path max_retries attempt w :
  fetch_success output_path
    (transport (calls w) (gdown_cmd file_id output_path) (fs w)) ->
  exists w1,
    attempt_body uni_lower transport file_id output_path max_retries attempt w
    = (Return Success, w1)
    /\ calls w1 = S (calls w).
Proof.
  intros (err & files & size & E & Hs & Hpos).
  rewrite (attempt_body_completed _ _ _ _ _ _ _ _ _ _ E). cbv zeta.
  unfold fetched_ok. rewrite Hs. simpl.
  apply N.ltb_lt in Hpos. rewrite Hpos.
  eexists. split; reflexivity.
Qed.

End RetryFacts.

(** C1: for a task whose destination does not exist, a transport that fails
    on every invocation with a diagnostic holding a rate-limit term is
    invoked exactly [max_retries] times (three by default) and the result is
    Error; a transport that reports a failure of the other kind on the first
    invocation and fetches a non-empty file on the second gives Success
    after exactly two invocations, with [max_retries = 3]. *)
Theorem C1_retry_policy (uni_lower : list N -> N -> list N -> list N)
    (limited flaky : Transport) (file_id output_path : list N) (w : World) :
  fs w !! output_path = None ->
  (forall k files,
      rate_limit_failure output_path (limited k (gdown_cmd file_id output_path) files)) ->
  generic_failure uni_lower output_path
    (flaky (calls w) (gdown_cmd file_id output_path) (fs w)) ->
  (forall files,
      fetch_success output_path (flaky (S (calls w)) (gdown_cmd file_id output_path) files)) ->
  (forall max_retries,
      exists w',
        download_file uni_lower limited file_id output_path max_retries w = (Error, w')
        /\ calls w' = (calls w + max_retries)%nat)
  /\ (exists w',
        download_file uni_lower flaky file_id output_path 3 w = (Success, w')
        /\ calls w' = (calls w + 2)%nat).
Proof.
  intros Hnone Hlim Hgen Hok. split.
  - intros max_retries. unfold download_file. rewrite Hnone.
    destruct (attempts_rate_limited uni_lower limited file_id output_path max_retries
                Hlim max_retries 0%nat (sleep Jitter w)) as (w' & E & Hc).
    exists w'. split; [exact E|exact Hc].
  - unfold download_file. rewrite Hnone. simpl.
    destruct (attempt_body_generic uni_lower flaky file_id output_path 3 0
                (sleep Jitter w) Hgen) as (w1 & -> & Hc1); [lia|].
    assert (Hok1 : fetch_success output_path
                     (flaky (calls w1) (gdown_cmd file_id output_path) (fs w1))).
    { rewrite Hc1. apply Hok. }
    destruct (attempt_body_success uni_lower flaky file_id output_path 3 1 w1 Hok1)
      as (w2 & -> & Hc2).
    exists w2. split; [reflexivity|]. rewrite Hc2, Hc1. simpl. lia.
Qed.

Lemma C1_retry_policy_witness :
  (exists w',
      download_file ascii_lower_only limited_stub (lit "ABC123") (lit "photos/a.jpg") 3
                    empty_world = (Error, w')
      /\ calls w' = 3%nat)
  /\ (exists w',
        download_file ascii_lower_only flaky_stub (lit "ABC123") (lit "photos/a.jpg") 3
                      empty_world = (Success, w')
        /\ calls w' = 2%nat).
Proof.
  assert (H1 : fs empty_world !! lit "photos/a.jpg" = None) by reflexivity.
  assert (H2 : forall k files,
             rate_limit_failure (lit "photos/a.jpg")
               (limited_stub k (gdown_cmd (lit "ABC123") (lit "photos/a.jpg")) files)).
  { intros k files. exists 1%Z, (lit "Download quota exceeded"), files.
    split; [reflexivity|]. split; [reflexivity|].
    exists (lit "quota"), (lit "Download "), (lit " exceeded").
    split; [left; reflexivity|reflexivity]. }
  assert (H3 : generic_failure ascii_lower_only (lit "photos/a.jpg")
                 (flaky_stub (calls empty_world)
                    (gdown_cmd (lit "ABC123") (lit "photos/a.jpg")) (fs empty_world))).
  { exists 1%Z, (lit "Connection reset by peer"), ∅.
    split; [reflexivity|]. split; [reflexivity|].
    intros H. apply is_rate_limited_iff in H. vm_compute in H. discriminate H. }
  assert (H4 : forall files,
             fetch_success (lit "photos/a.jpg")
               (flaky_stub (S (calls empty_world))
                  (gdown_cmd (lit "ABC123") (lit "photos/a.jpg")) files)).
  { intros files. exists [], (<[lit "photos/a.jpg" := 2048]> files), 2048.
    split; [reflexivity|]. split; [apply lookup_insert_eq|reflexivity]. }
  destruct (C1_retry_policy ascii_lower_only limited_stub flaky_stub (lit "ABC123")
              (lit "photos/a.jpg") empty_world H1 H2 H3 H4) as [A B].
  split; [exact (A 3%nat)|exact B].
Defined.

Section ZeroByteFacts.
Variable uni_lower : list N -> N -> list N -> list N.
Variable transport : Transport.

Lemma after_failure_trace stderr max_retries attempt w e :
  In e (trace w) -> In e (trace (after_failure uni_lower stderr max_retries attempt w).2).
Proof.
  intros H. unfold after_failure.
  destruct (is_rate_limited uni_lower stderr); simpl.
  - rewrite !in_app_iff. auto.
  - destruct (_ <? _)%Z; simpl; rewrite in_app_iff; auto.
Qed.

Lemma after_failure_continue stderr max_retries attempt w :
  (S attempt < max_retries)%nat \/ is_rate_limited uni_lower stderr = true ->
  (after_failure uni_lower stderr max_retries attempt w).1 = Continue.
Proof.
  intros H. unfold after_failure.
  destruct (is_rate_limited uni_lower stderr); [reflexivity|].
  destruct H as [H|H]; [|discriminate].
  assert ((Z.of_nat attempt <? Z.of_nat max_retries - 1)%Z = true) as ->
    by (apply Z.ltb_lt; lia).
  reflexivity.
Qed.

End ZeroByteFacts.

(** C5: when an invocation returns status zero and the destination file has
    size zero, the attempt deletes that file and goes on with the retry
    logic: the file no longer exists, the attempt never ends in Success, and
    it continues with the next attempt whenever an attempt is left or the
    diagnostic names a rate limit. *)
Theorem C5_zero_byte_retried (uni_lower : list N -> N -> list N -> list N)
    (transport : Transport) (file_id output_path : list N)
    (max_retries attempt : nat) (w : World) (stderr : list N) (fs1 : gmap (list N) N) :
  transport (calls w) (gdown_cmd file_id output_path) (fs w) = Completed 0 stderr fs1 ->
  fs1 !! output_path = Some 0 ->
  let w1 := ran (gdown_cmd file_id output_path) (Completed 0 stderr fs1) w in
  let result := attempt_body uni_lower transport file_id output_path max_retries attempt w in
  result = after_failure uni_lower stderr max_retries attempt (remove output_path w1)
  /\ fs (remove output_path w1) !! output_path = None
  /\ fs result.2 !! output_path = None
  /\ In (Removed output_path) (trace result.2)
  /\ result.1 <> Return Success
  /\ ((S attempt < max_retries)%nat \/ is_rate_limited uni_lower stderr = true ->
      result.1 = Continue).
Proof.
  intros E Hz w1 result.
  assert (Hr : result
               = after_failure uni_lower stderr max_retries attempt (remove output_path w1)).
  { subst result. rewrite (attempt_body_completed _ _ _ _ _ _ _ _ _ _ E). cbv zeta.
    unfold fetched_ok, zero_byte. rewrite Hz. reflexivity. }
  split; [exact Hr|]. rewrite Hr.
  split; [apply lookup_delete_eq|].
  split; [rewrite (proj2 (after_failure_world _ _ _ _ _)); apply lookup_delete_eq|].
  split; [apply after_failure_trace; simpl; rewrite in_app_iff; simpl; auto|].
  split; [apply after_failure_not_success|apply after_failure_continue].
Qed.

Lemma C5_zero_byte_retried_witness :
  let result :=
    attempt_body ascii_lower_only empty_file_stub (lit "ABC123") (lit "photos/a.jpg")
                 3 0 empty_world in
  fs result.2 !! lit "photos/a.jpg" = None
  /\ In (Removed (lit "photos/a.jpg")) (trace result.2)
  /\ result.1 = Continue.
Proof.
  assert (E : empty_file_stub (calls empty_world)
                (gdown_cmd (lit "ABC123") (lit "photos/a.jpg")) (fs empty_world)
              = Completed 0 [] (<[lit "photos/a.jpg" := 0]> ∅)) by reflexivity.
  assert (Hz : (<[lit "photos/a.jpg" := 0]> ∅ : gmap (list N) N) !! lit "photos/a.jpg"
               = Some 0) by apply lookup_insert_eq.
  destruct (C5_zero_byte_retried ascii_lower_only empty_file_stub (lit "ABC123")
              (lit "photos/a.jpg") 3 0 empty_world [] _ E Hz)
    as (_ & _ & A & B & _ & C).
  split; [exact A|]. split; [exact B|]. apply C. left. lia.
Defined.

(** C6: when an invocation raises a failure that is not a timeout, the loop
    ends at once with Error, whatever number of attempts is left, and no
    further invocation is made; if the loop makes a further invocation, the
    one before it ended in a timeout or returned without a fetched file. *)
Theorem C6_raised_fails_fast (uni_lower : list N -> N -> list N -> list N)
    (transport : Transport) (file_id output_path : list N)
    (max_retries remaining attempt : nat) (w : World) :
  let cmd := gdown_cmd file_id output_path in
  let result := attempts uni_lower transport file_id output_path max_retries
                         (S remaining) attempt w in
  (forall fs1,
      transport (calls w) cmd (fs w) = Raised fs1 ->
      result = (Error, print MsgError (ran cmd (Raised fs1) w))
      /\ calls result.2 = S (calls w))
  /\ ((S (calls w) < calls result.2)%nat ->
      retryable output_path (transport (calls w) cmd (fs w))).
Proof.
  intros cmd result. split.
  - intros fs1 E. subst result. simpl.
    rewrite (attempt_body_raised _ _ _ _ _ _ _ _ E). split; reflexivity.
  - subst result. simpl. intros Hlt.
    destruct (transport (calls w) cmd (fs w)) as [rc err fs1|fs1|fs1] eqn:E.
    + right. exists rc, err, fs1. split; [reflexivity|].
      rewrite (attempt_body_completed _ _ _ _ _ _ _ _ _ _ E) in Hlt. cbv zeta in Hlt.
      destruct (fetched_ok rc output_path fs1); [|reflexivity].
      simpl in Hlt. lia.
    + left. exists fs1. reflexivity.
    + rewrite (attempt_body_raised _ _ _ _ _ _ _ _ E) in Hlt. simpl in Hlt. lia.
Qed.

Lemma C6_raised_fails_fast_witness :
  (attempts ascii_lower_only raising_stub (lit "ABC123") (lit "photos/a.jpg") 3 3 0
            empty_world).1 = Error
  /\ calls (attempts ascii_lower_only raising_stub (lit "ABC123") (lit "photos/a.jpg")
                     3 3 0 empty_world).2 = 1%nat
  /\ retryable (lit "photos/a.jpg")
       (timeout_stub (calls empty_world) (gdown_cmd (lit "ABC123") (lit "photos/a.jpg"))
                     (fs empty_world)).
Proof.
  destruct (C6_raised_fails_fast ascii_lower_only raising_stub (lit "ABC123")
              (lit "photos/a.jpg") 3 2 0 empty_world) as [A _].
  destruct (A ∅ eq_refl) as [A1 A2].
  destruct (C6_raised_fails_fast ascii_lower_only timeout_stub (lit "ABC123")
              (lit "photos/a.jpg") 3 2 0 empty_world) as [_ B].
  split; [rewrite A1; reflexivity|]. split; [exact A2|].
  apply B. vm_compute. lia.
Defined.

(** ** Runs over existing files *)

Section RerunFacts.
Variable uni_lower : list N -> N -> list N -> list N.
Variable transport : Transport.



Lemma attempt_body_other file_id output_path max_retries attempt w p :
  p <> output_path ->
  fs (attempt_body uni_lower transport file_id output_path max_retries attempt w).2 !! p
  = fs_after (transport (calls w) (gdown_cmd file_id output_path) (fs w)) !! p.
Proof.
  intros Hp.
  destruct (transport (calls w) (gdown_cmd file_id output_path) (fs w))
    as [rc err fs1|fs1|fs1] eqn:E.
  - rewrite (attempt_body_completed _ _ _ _ _ _ _ _ _ _ E). cbv zeta.
    destruct (fetched_ok rc output_path fs1); [reflexivity|].
    rewrite (proj2 (after_failure_world _ _ _ _ _)).
    destruct (zero_byte rc output_path fs1); [|reflexivity].
    simpl. apply lookup_delete_ne. congruence.
  - rewrite (attempt_body_timeout _ _ _ _ _ _ _ _ E). cbv zeta.
    destruct (_ <? _)%Z; reflexivity.
  - rewrite (attempt_body_raised _ _ _ _ _ _ _ _ E). reflexivity.
Qed.




Lemma attempt_body_returns file_id output_path max_retries attempt w o :
  (attempt_body uni_lower transport file_id output_path max_retries attempt w).1
    = Return o -> o <> Skipped.
Proof.
  destruct (transport (calls w) (gdown_cmd file_id output_path) (fs w))
    as [rc err fs1|fs1|fs1] eqn:E.
  - rewrite (attempt_body_completed _ _ _ _ _ _ _ _ _ _ E). cbv zeta.
    destruct (fetched_ok rc output_path fs1); [intros [= <-]; discriminate|].
    unfold after_failure. destruct (is_rate_limited uni_lower err); [discriminate|].
    destruct (_ <? _)%Z; [discriminate|]. intros [= <-]. discriminate.
  - rewrite (attempt_body_timeout _ _ _ _ _ _ _ _ E). cbv zeta.
    destruct (_ <? _)%Z; [discriminate|]. intros [= <-]. discriminate.
  - rewrite (attempt_body_raised _ _ _ _ _ _ _ _ E). intros [= <-]. discriminate.
Qed.










End RerunFacts.









(** ** More on the string operations *)

Lemma lstrip_split s :
  exists pre,
    s = pre ++ lstrip s
    /\ Forall (fun c => is_space c = true) pre
    /\ match lstrip s with [] => True | c :: _ => is_space c = false end.
Proof.
  induction s as [|c s (pre & H1 & H2 & H3)]; simpl.
  - exists []. auto.
  - destruct (is_space c) eqn:E.
    + exists (c :: pre). simpl. split; [congruence|]. split; [constructor; assumption|exact H3].
    + exists []. auto.
Qed.

Lemma rstrip_split s :
  exists post,
    s = rstrip s ++ post
    /\ Forall (fun c => is_space c = true) post
    /\ match rev (rstrip s) with [] => True | c :: _ => is_space c = false end.
Proof.
  unfold rstrip. destruct (lstrip_split (rev s)) as (pre & H1 & H2 & H3).
  exists (rev pre). rewrite rev_involutive. split; [|split; [|exact H3]].
  - rewrite <- rev_app_distr, <- H1, rev_involutive. reflexivity.
  - apply Forall_rev. exact H2.
Qed.

(** [strip] cuts a run of whitespace off each end and nothing else. *)
Lemma strip_frames_text (s : list N) :
  exists pre post,
    s = pre ++ strip s ++ post
    /\ Forall (fun c => is_space c = true) pre
    /\ Forall (fun c => is_space c = true) post
    /\ match strip s with [] => True | c :: _ => is_space c = false end
    /\ match rev (strip s) with [] => True | c :: _ => is_space c = false end.
Proof.
  unfold strip.
  destruct (lstrip_split s) as (pre & H1 & H2 & H3).
  destruct (rstrip_split (lstrip s)) as (post & H4 & H5 & H6).
  exists pre, post. split; [congruence|]. split; [exact H2|]. split; [exact H5|].
  split; [|exact H6].
  destruct (rstrip (lstrip s)) as [|c r] eqn:E; [exact I|].
  rewrite H4 in H3. exact H3.
Qed.

Lemma lstrip_id s :
  match s with [] => True | c :: _ => is_space c = false end -> lstrip s = s.
Proof. destruct s as [|c s]; simpl; [reflexivity|]. intros ->. reflexivity. Qed.

Lemma strip_idempotent (s : list N) : strip (strip s) = strip s.
Proof.
  destruct (strip_frames_text s) as (pre & post & _ & _ & _ & H1 & H2).
  unfold strip at 1. rewrite (lstrip_id _ H1).
  unfold rstrip. rewrite (lstrip_id _ H2). apply rev_involutive.
Qed.

(** ** More on [extract_file_id] *)

Lemma is_blank_false_of pre c post :
  is_space c = false -> is_blank (pre ++ c :: post) = false.
Proof.
  intros Hc. destruct (is_blank (pre ++ c :: post)) eqn:B; [|reflexivity].
  apply is_blank_spaces in B. apply Forall_app in B. destruct B as [_ B].
  inversion B; congruence.
Qed.

Lemma span_class_app cls g post :
  Forall (fun c => cls c = true) g ->
  match post with [] => True | c :: _ => cls c = false end ->
  span_class cls (g ++ post) = g.
Proof.
  intros Hg Hp. induction Hg as [|c g Hc _ IH]; simpl.
  - destruct post as [|c post]; [reflexivity|]. simpl. rewrite Hp. reflexivity.
  - rewrite Hc, IH. reflexivity.
Qed.

Lemma match_lit_group_here l cls g post :
  g <> [] ->
  Forall (fun c => cls c = true) g ->
  match post with [] => True | c :: _ => cls c = false end ->
  match_lit_group l cls (l ++ g ++ post) = Some g.
Proof.
  intros Hne Hg Hp. unfold match_lit_group.
  rewrite startswith_app, drop_app_length, span_class_app by assumption.
  destruct g; [contradiction|reflexivity].
Qed.

Lemma startswith_take l x y k :
  startswith l (x ++ y) = true ->
  (length l <= length x + k)%nat ->
  startswith l (x ++ take k y) = true.
Proof.
  revert x y k. induction l as [|a l IH]; intros x y k; simpl; [reflexivity|].
  destruct x as [|b x]; simpl.
  - destruct y as [|b y]; [discriminate|].
    destruct k as [|k]; simpl; [lia|].
    destruct (a =? b); [|discriminate]. simpl. intros H Hl.
    apply (IH [] y k); [exact H|simpl; lia].
  - destruct (a =? b); [|discriminate]. simpl. intros H Hl.
    apply IH; [exact H|lia].
Qed.

Lemma contains_false_tail l c s : contains l (c :: s) = false -> contains l s = false.
Proof. simpl. intros H. apply orb_false_iff in H. tauto. Qed.

Lemma contains_false_head l s : contains l s = false -> startswith l s = false.
Proof. destruct s; simpl; intros H; apply orb_false_iff in H; tauto. Qed.

Lemma removelast_take (l : list N) : removelast l = take (length l - 1) l.
Proof.
  induction l as [|a l IH]; [reflexivity|].
  destruct l as [|b l]; [reflexivity|].
  change (removelast (a :: b :: l)) with (a :: removelast (b :: l)).
  rewrite IH. simpl. rewrite Nat.sub_0_r. reflexivity.
Qed.

(** The search passes over a prefix in which the literal does not start. *)
Lemma search_lit_group_skip l cls pre rest :
  contains l (pre ++ removelast l) = false ->
  search_lit_group l cls (pre ++ l ++ rest) = search_lit_group l cls (l ++ rest).
Proof.
  induction pre as [|c pre IH]; [reflexivity|].
  intros H. change ((c :: pre) ++ l ++ rest) with (c :: pre ++ l ++ rest).
  change (search_lit_group l cls (c :: pre ++ l ++ rest))
    with (match match_lit_group l cls (c :: pre ++ l ++ rest) with
          | Some g => Some g
          | None => search_lit_group l cls (pre ++ l ++ rest)
          end).
  assert (Hs : startswith l (c :: pre ++ l ++ rest) = false).
  { destruct (startswith l (c :: pre ++ l ++ rest)) eqn:S; [|reflexivity].
    apply contains_false_head in H. rewrite removelast_take in H.
    change (c :: pre ++ l ++ rest) with ((c :: pre) ++ (l ++ rest)) in S.
    apply (startswith_take _ _ _ (length l - 1)) in S; [|simpl; lia].
    rewrite take_app_le in S by lia. congruence. }
  unfold match_lit_group. rewrite Hs.
  apply IH. apply contains_false_tail in H. exact H.
Qed.

Lemma search_lit_group_none l cls s :
  contains l s = false -> search_lit_group l cls s = None.
Proof.
  induction s as [|c s IH]; intros H.
  - simpl. unfold match_lit_group. rewrite (contains_false_head _ _ H). reflexivity.
  - simpl. unfold match_lit_group. rewrite (contains_false_head _ _ H).
    apply IH. apply contains_false_tail in H. exact H.
Qed.

Lemma search_lit_group_exact l cls pre g post :
  contains l (pre ++ removelast l) = false ->
  g <> [] ->
  Forall (fun c => cls c = true) g ->
  match post with [] => True | c :: _ => cls c = false end ->
  search_lit_group l cls (pre ++ l ++ g ++ post) = Some g.
Proof.
  intros H Hne Hg Hp. rewrite search_lit_group_skip by exact H.
  destruct (l ++ g ++ post) eqn:E; simpl; rewrite <- E;
    rewrite match_lit_group_here by assumption; reflexivity.
Qed.

(** The search finds a group wherever the literal is followed by a
    character of the class. *)
Lemma search_lit_group_finds l cls pre c rest :
  cls c = true ->
  is_Some (search_lit_group l cls (pre ++ l ++ c :: rest)).
Proof.
  intros Hc. induction pre as [|a pre IH].
  - simpl. destruct (l ++ c :: rest) eqn:E; simpl; rewrite <- E;
      unfold match_lit_group; rewrite startswith_app, drop_app_length; simpl;
      rewrite Hc; eauto.
  - change ((a :: pre) ++ l ++ c :: rest) with (a :: pre ++ l ++ c :: rest).
    simpl. destruct (match_lit_group l cls (a :: pre ++ l ++ c :: rest)); eauto.
Qed.

Lemma extract_file_id_valid (s g : list N) :
  extract_file_id s = Some g ->
  g <> []
  /\ Forall (fun c => is_id_char c = true) g
  /\ exists marker pre post,
       (marker = lit "id=" \/ marker = lit "/d/")
       /\ s = pre ++ marker ++ g ++ post
       /\ match post with [] => True | c :: _ => is_id_char c = false end.
Proof.
  unfold extract_file_id. destruct (is_blank s); [discriminate|].
  destruct (search_query_id s) as [g1|] eqn:E1.
  - intros [= <-]. apply search_lit_group_sound in E1.
    destruct E1 as (pre & post & H1 & H2 & H3 & H4).
    split; [exact H2|]. split; [exact H3|]. exists (lit "id="), pre, post. auto.
  - destruct (search_path_id s) as [g2|] eqn:E2; [|discriminate].
    intros [= <-]. apply search_lit_group_sound in E2.
    destruct E2 as (pre & post & H1 & H2 & H3 & H4).
    split; [exact H2|]. split; [exact H3|]. exists (lit "/d/"), pre, post. auto.
Qed.

(** X1: the identifier found is never empty, holds only characters of
    [[a-zA-Z0-9_-]], stands in the reference right after 'id=' or '/d/',
    and ends where those characters end. *)
Theorem extract_file_id_sound (s g : list N) :
  extract_file_id s = Some g ->
  g <> []
  /\ Forall (fun c => is_id_char c = true) g
  /\ exists marker pre post,
       (marker = lit "id=" \/ marker = lit "/d/")
       /\ s = pre ++ marker ++ g ++ post
       /\ match post with [] => True | c :: _ => is_id_char c = false end.
Proof. apply extract_file_id_valid. Qed.

Lemma extract_file_id_sound_witness :
  lit "ABC123" <> []
  /\ Forall (fun c => is_id_char c = true) (lit "ABC123")
  /\ exists marker pre post,
       (marker = lit "id=" \/ marker = lit "/d/")
       /\ lit "https://host/open?id=ABC123&export=download"
          = pre ++ marker ++ lit "ABC123" ++ post
       /\ match post with [] => True | c :: _ => is_id_char c = false end.
Proof.
  apply (extract_file_id_sound (lit "https://host/open?id=ABC123&export=download")).
  reflexivity.
Defined.

(** X2: a reference in which 'id=' or '/d/' is followed by a character of
    [[a-zA-Z0-9_-]] always gives an identifier. *)
Theorem extract_file_id_finds (s marker pre rest : list N) (c : N) :
  marker = lit "id=" \/ marker = lit "/d/" ->
  s = pre ++ marker ++ c :: rest ->
  is_id_char c = true ->
  is_Some (extract_file_id s).
Proof.
  intros Hm -> Hc. unfold extract_file_id.
  assert (B : is_blank (pre ++ marker ++ c :: rest) = false).
  { destruct Hm as [->| ->]; apply is_blank_false_of; reflexivity. }
  rewrite B. destruct (search_query_id (pre ++ marker ++ c :: rest)) eqn:E1; [eauto|].
  destruct Hm as [->| ->].
  - pose proof (search_lit_group_finds (lit "id=") is_id_char pre c rest Hc) as [g Hg].
    unfold search_query_id in E1. congruence.
  - pose proof (search_lit_group_finds (lit "/d/") is_id_char pre c rest Hc) as [g Hg].
    unfold search_path_id. rewrite Hg. eauto.
Qed.

Lemma extract_file_id_finds_witness :
  is_Some (extract_file_id (lit "see /d/x")).
Proof.
  apply (extract_file_id_finds (lit "see /d/x") (lit "/d/") (lit "see ") [] 120).
  - right. reflexivity.
  - reflexivity.
  - reflexivity.
Defined.

Lemma extract_file_id_query_exact (pre g post : list N) :
  contains (lit "id=") (pre ++ lit "id") = false ->
  g <> [] ->
  Forall (fun c => is_id_char c = true) g ->
  match post with [] => True | c :: _ => is_id_char c = false end ->
  extract_file_id (pre ++ lit "id=" ++ g ++ post) = Some g.
Proof.
  intros H Hne Hg Hp. unfold extract_file_id.
  assert (B : is_blank (pre ++ lit "id=" ++ g ++ post) = false)
    by (apply (is_blank_false_of pre 105 (lit "d=" ++ g ++ post)); reflexivity).
  rewrite B.
  unfold search_query_id.
  rewrite (search_lit_group_exact (lit "id=") is_id_char pre g post H Hne Hg Hp).
  reflexivity.
Qed.

(** X3: a reference of the query form gives back the identifier put into
    it: the first 'id=' of the text is followed by the identifier, which
    ends at the end of the text or at a character outside [[a-zA-Z0-9_-]]. *)
Theorem extract_file_id_query_round_trip (pre g post : list N) :
  contains (lit "id=") (pre ++ lit "id") = false ->
  g <> [] ->
  Forall (fun c => is_id_char c = true) g ->
  match post with [] => True | c :: _ => is_id_char c = false end ->
  extract_file_id (pre ++ lit "id=" ++ g ++ post) = Some g.
Proof. apply extract_file_id_query_exact. Qed.

Lemma extract_file_id_query_round_trip_witness :
  extract_file_id
    (lit "https://drive.google.com/open?" ++ lit "id=" ++ lit "1aB-9_z" ++ lit "&usp=x")
  = Some (lit "1aB-9_z").
Proof.
  apply extract_file_id_query_round_trip.
  - vm_compute. reflexivity.
  - discriminate.
  - repeat constructor.
  - reflexivity.
Defined.

(** X4: a reference of the path form, with no 'id=' anywhere in it, gives back
    the identifier that follows its first '/d/'. *)
Theorem extract_file_id_path_round_trip (pre g post : list N) :
  contains (lit "id=") (pre ++ lit "/d/" ++ g ++ post) = false ->
  contains (lit "/d/") (pre ++ lit "/d") = false ->
  g <> [] ->
  Forall (fun c => is_id_char c = true) g ->
  match post with [] => True | c :: _ => is_id_char c = false end ->
  extract_file_id (pre ++ lit "/d/" ++ g ++ post) = Some g.
Proof.
  intros Hq H Hne Hg Hp. unfold extract_file_id.
  assert (B : is_blank (pre ++ lit "/d/" ++ g ++ post) = false)
    by (apply (is_blank_false_of pre 47 (lit "d/" ++ g ++ post)); reflexivity).
  rewrite B.
  unfold search_query_id, search_path_id.
  rewrite (search_lit_group_none _ _ _ Hq).
  rewrite (search_lit_group_exact (lit "/d/") is_id_char pre g post H Hne Hg Hp).
  reflexivity.
Qed.

Lemma extract_file_id_path_round_trip_witness :
  extract_file_id
    (lit "https://drive.google.com/file" ++ lit "/d/" ++ lit "XYZ_9-8" ++ lit "/view")
  = Some (lit "XYZ_9-8").
Proof.
  apply extract_file_id_path_round_trip.
  - vm_compute. reflexivity.
  - vm_compute. reflexivity.
  - discriminate.
  - repeat constructor.
  - reflexivity.
Defined.

(** X5: the address [download_file] hands to gdown holds the identifier in the
    query form: [extract_file_id] reads the same identifier back from it. *)
Theorem gdown_cmd_url_round_trip (file_id output_path : list N) :
  file_id <> [] ->
  Forall (fun c => is_id_char c = true) file_id ->
  extract_file_id (nth 1 (gdown_cmd file_id output_path) []) = Some file_id.
Proof.
  intros Hne Hg.
  change (nth 1 (gdown_cmd file_id output_path) [])
    with (lit "https://drive.google.com/uc?id=" ++ file_id).
  assert (E : lit "https://drive.google.com/uc?id=" ++ file_id
              = lit "https://drive.google.com/uc?" ++ lit "id=" ++ file_id ++ [])
    by (rewrite app_nil_r; reflexivity).
  rewrite E.
  apply extract_file_id_query_exact; [vm_compute; reflexivity|assumption..|exact I].
Qed.

Lemma gdown_cmd_url_round_trip_witness :
  extract_file_id (nth 1 (gdown_cmd (lit "ABC123") (lit "photos/a.jpg")) [])
  = Some (lit "ABC123").
Proof.
  apply gdown_cmd_url_round_trip; [discriminate|repeat constructor].
Defined.

(** ** More on [sanitize_filename] *)

Lemma sub_runs_fixed (b : bool) (x : list N) :
  contains [UNDERSCORE; UNDERSCORE] x = false ->
  (if b then match x with [] => true | c :: _ => negb (c =? UNDERSCORE) end else true) = true ->
  sub_runs b x = x.
Proof.
  revert b. induction x as [|c x IH]; intros b Hc Hb; [reflexivity|].
  pose proof (contains_false_head _ _ Hc) as Hh.
  apply contains_false_tail in Hc. simpl.
  destruct (c =? UNDERSCORE) eqn:E.
  - apply N.eqb_eq in E. subst c. destruct b; [cbv in Hb; discriminate Hb|].
    f_equal. apply IH; [exact Hc|].
    destruct x as [|d x]; [reflexivity|].
    change (startswith [UNDERSCORE; UNDERSCORE] (UNDERSCORE :: d :: x))
      with ((UNDERSCORE =? UNDERSCORE) && ((UNDERSCORE =? d) && true)) in Hh.
    rewrite N.eqb_refl, andb_true_r in Hh.
    change (negb (d =? UNDERSCORE) = true).
    rewrite N.eqb_sym. change ((UNDERSCORE =? d) = false) in Hh. rewrite Hh. reflexivity.
  - f_equal. apply IH; [exact Hc|reflexivity].
Qed.

Lemma sub_runs_length (b : bool) (x : list N) : (length (sub_runs b x) <= length x)%nat.
Proof.
  revert b. induction x as [|c x IH]; intros b; simpl; [lia|].
  pose proof (IH true). pose proof (IH false).
  destruct (c =? UNDERSCORE); [destruct b|]; simpl; lia.
Qed.

(** X6: a name made of safe characters only, without two underscores in a
    row, is left as it is by [sanitize_filename]. *)
Theorem sanitize_filename_keeps_safe_names (uni_alnum : N -> bool) (x : list N) :
  Forall (fun c => safe_char uni_alnum c = true) x ->
  contains [UNDERSCORE; UNDERSCORE] x = false ->
  sanitize_filename uni_alnum x = x.
Proof.
  intros Hs Hc. unfold sanitize_filename.
  rewrite sub_unsafe_id.
  - apply sub_runs_fixed; [exact Hc|reflexivity].
  - eapply Forall_impl; [exact Hs|]. intros c H. simpl in H.
    rewrite is_unsafe_safe_char, H. reflexivity.
Qed.

Lemma sanitize_filename_keeps_safe_names_witness :
  sanitize_filename ascii_alnum_only (lit "4-Bagaha_East.v2") = lit "4-Bagaha_East.v2".
Proof.
  apply sanitize_filename_keeps_safe_names.
  - repeat constructor.
  - reflexivity.
Defined.

(** X7: [sanitize_filename] never makes a name longer, and a name that is
    not empty stays not empty. *)
Theorem sanitize_filename_length (uni_alnum : N -> bool) (x : list N) :
  (length (sanitize_filename uni_alnum x) <= length x)%nat
  /\ match x with
     | [] => sanitize_filename uni_alnum x = []
     | _ :: _ => (0 < length (sanitize_filename uni_alnum x))%nat
     end.
Proof.
  split.
  - unfold sanitize_filename. etransitivity; [apply sub_runs_length|].
    unfold sub_unsafe. rewrite length_map. lia.
  - destruct x as [|c x]; [reflexivity|].
    unfold sanitize_filename. simpl.
    destruct ((if is_unsafe uni_alnum c then UNDERSCORE else c) =? UNDERSCORE); simpl; lia.
Qed.

(** ** Paths and padding *)

Lemma no_slash_app a b :
  existsb (N.eqb SLASH) (a ++ b) = false
  <-> existsb (N.eqb SLASH) a = false /\ existsb (N.eqb SLASH) b = false.
Proof. rewrite existsb_app, orb_false_iff. reflexivity. Qed.

Lemma basename_no_slash name :
  existsb (N.eqb SLASH) name = false -> basename name = name.
Proof.
  destruct name as [|c name]; [reflexivity|].
  change (existsb (N.eqb SLASH) (c :: name))
    with ((SLASH =? c) || existsb (N.eqb SLASH) name).
  intros H. apply orb_false_iff in H. destruct H as [H1 H2].
  change (basename (c :: name))
    with (if existsb (N.eqb SLASH) name then basename name
          else if c =? SLASH then name else c :: name).
  rewrite H2, N.eqb_sym, H1. reflexivity.
Qed.

Lemma basename_after_slash d name :
  existsb (N.eqb SLASH) name = false -> basename (d ++ SLASH :: name) = name.
Proof.
  intros H. induction d as [|c d IH].
  - change (basename ([] ++ SLASH :: name))
      with (if existsb (N.eqb SLASH) name then basename name
            else if SLASH =? SLASH then name else SLASH :: name).
    rewrite H. reflexivity.
  - change ((c :: d) ++ SLASH :: name) with (c :: d ++ SLASH :: name).
    change (basename (c :: d ++ SLASH :: name))
      with (if existsb (N.eqb SLASH) (d ++ SLASH :: name)
            then basename (d ++ SLASH :: name)
            else if c =? SLASH then d ++ SLASH :: name else c :: d ++ SLASH :: name).
    rewrite existsb_app.
    change (existsb (N.eqb SLASH) (SLASH :: name))
      with ((SLASH =? SLASH) || existsb (N.eqb SLASH) name).
    rewrite N.eqb_refl, orb_true_r. exact IH.
Qed.

Lemma path_join_relative a b :
  startswith [SLASH] b = false -> path_join a b = join_prefix_of a ++ b.
Proof.
  intros H. unfold path_join, join_prefix_of. rewrite H.
  destruct a as [|c a]; [reflexivity|].
  destruct (N.eqb (List.last (c :: a) 0) SLASH); [reflexivity|].
  rewrite <- app_assoc. reflexivity.
Qed.

Lemma join_prefix_of_shape a :
  join_prefix_of a = [] \/ exists d, join_prefix_of a = d ++ [SLASH].
Proof.
  unfold join_prefix_of. destruct a as [|c a]; [left; reflexivity|]. right.
  destruct (N.eqb (List.last (c :: a) 0) SLASH) eqn:E.
  - apply N.eqb_eq in E. exists (removelast (c :: a)).
    rewrite <- E. apply app_removelast_last. discriminate.
  - exists (c :: a). reflexivity.
Qed.

Lemma no_slash_not_absolute name :
  existsb (N.eqb SLASH) name = false -> startswith [SLASH] name = false.
Proof.
  destruct name as [|c name]; [reflexivity|].
  change (existsb (N.eqb SLASH) (c :: name))
    with ((SLASH =? c) || existsb (N.eqb SLASH) name).
  intros H. apply orb_false_iff in H. destruct H as [H _].
  change (startswith [SLASH] (c :: name)) with ((SLASH =? c) && true).
  rewrite H. reflexivity.
Qed.

Lemma basename_path_join a name :
  existsb (N.eqb SLASH) name = false -> basename (path_join a name) = name.
Proof.
  intros H. rewrite path_join_relative by (apply no_slash_not_absolute, H).
  destruct (join_prefix_of_shape a) as [-> | [d ->]].
  - apply basename_no_slash, H.
  - rewrite <- app_assoc. apply basename_after_slash, H.
Qed.

Lemma no_slash_Forall (P : N -> Prop) x :
  P SLASH -> Forall (fun c => ~ P c) x -> existsb (N.eqb SLASH) x = false.
Proof.
  intros HP. induction 1 as [|c x Hc _ IH]; [reflexivity|].
  change (existsb (N.eqb SLASH) (c :: x))
    with ((SLASH =? c) || existsb (N.eqb SLASH) x).
  rewrite IH, orb_false_r. destruct (SLASH =? c) eqn:E; [|reflexivity].
  apply N.eqb_eq in E. subst c. contradiction.
Qed.

Lemma sanitize_no_slash uni_alnum x :
  existsb (N.eqb SLASH) (sanitize_filename uni_alnum x) = false.
Proof.
  apply (no_slash_Forall (fun c => is_unsafe uni_alnum c = true)); [reflexivity|].
  eapply Forall_impl; [apply sanitize_safe|]. intros c H. simpl in H. congruence.
Qed.

Lemma id_no_slash g :
  Forall (fun c => is_id_char c = true) g -> existsb (N.eqb SLASH) g = false.
Proof.
  intros H. apply (no_slash_Forall (fun c => is_id_char c = false)); [reflexivity|].
  eapply Forall_impl; [exact H|]. intros c Hc. simpl in Hc. congruence.
Qed.

Lemma strip_no_slash s :
  existsb (N.eqb SLASH) s = false -> existsb (N.eqb SLASH) (strip s) = false.
Proof.
  destruct (strip_frames_text s) as (pre & post & E & _).
  intros H. rewrite E in H. apply no_slash_app in H. destruct H as [_ H].
  apply no_slash_app in H. tauto.
Qed.

Lemma repeat_zero_no_slash n : existsb (N.eqb SLASH) (repeat ZERO n) = false.
Proof. induction n as [|n IH]; [reflexivity|]. simpl. exact IH. Qed.

Lemma zfill_no_slash width s :
  existsb (N.eqb SLASH) s = false -> existsb (N.eqb SLASH) (zfill width s) = false.
Proof.
  intros H. unfold zfill. destruct (width <=? length s)%nat; [exact H|].
  destruct s as [|c rest]; [apply repeat_zero_no_slash|].
  destruct ((c =? PLUS) || (c =? HYPHEN)).
  - change (c :: repeat ZERO (width - length (c :: rest)) ++ rest)
      with ([c] ++ repeat ZERO (width - length (c :: rest)) ++ rest).
    change (c :: rest) with ([c] ++ rest) in H. apply no_slash_app in H.
    destruct H as [H1 H2]. apply no_slash_app. split; [exact H1|].
    apply no_slash_app. split; [apply repeat_zero_no_slash|exact H2].
  - apply no_slash_app. split; [apply repeat_zero_no_slash|exact H].
Qed.

Section BuilderMore.
Variable uni_alnum : N -> bool.

Lemma built_filename_no_slash district composite station type role id :
  existsb (N.eqb SLASH) station = false ->
  existsb (N.eqb SLASH) role = false ->
  existsb (N.eqb SLASH) id = false ->
  existsb (N.eqb SLASH)
    (built_filename uni_alnum district composite station type role id) = false.
Proof.
  intros Hs Hr Hi. unfold built_filename.
  repeat (apply no_slash_app; split); try reflexivity; try assumption;
    try apply sanitize_no_slash.
  - destruct (text_before_bracket composite); [reflexivity|apply sanitize_no_slash].
  - apply zfill_no_slash, strip_no_slash, Hs.
Qed.

Lemma built_filename_relative district composite station type role id :
  startswith [SLASH]
    (built_filename uni_alnum district composite station type role id) = false.
Proof.
  unfold built_filename.
  pose proof (sanitize_no_slash uni_alnum district) as H.
  destruct (sanitize_filename uni_alnum district) as [|c r]; [reflexivity|].
  apply (no_slash_not_absolute (c :: r)) in H.
  exact H.
Qed.

Lemma tasks_named_In name output_dir row id path :
  In (id, path) (tasks_named name output_dir row) ->
  exists column,
    In column photo_columns
    /\ extract_file_id (row_get row column.1) = Some id
    /\ path = path_join output_dir (name column.2 id).
Proof.
  unfold tasks_named. rewrite in_flat_map. intros (column & Hc & H).
  exists column. split; [exact Hc|].
  destruct (extract_file_id (row_get row column.1)) as [g|]; [|contradiction].
  destruct H as [[= <- <-]|[]]. auto.
Qed.

End BuilderMore.

(** X8: when the station number of a row holds no slash, every task of the
    row writes directly into the output directory: the path is the
    directory prefix followed by a file name without a slash, and
    [os.path.basename] of the path (what the progress lines print) is that
    file name. *)
Theorem task_files_lie_in_output_dir (uni_alnum : N -> bool)
    (district output_dir : list N) (row : gmap (list N) (list N))
    (file_id output_path : list N) :
  existsb (N.eqb SLASH) (row_get row (lit "Polling Station No.")) = false ->
  In (file_id, output_path) (row_tasks uni_alnum district output_dir row) ->
  exists name,
    output_path = join_prefix_of output_dir ++ name
    /\ existsb (N.eqb SLASH) name = false
    /\ basename output_path = name.
Proof.
  intros Hs Hin. rewrite row_tasks_named in Hin.
  apply tasks_named_In in Hin. destruct Hin as (column & Hc & He & ->).
  eexists. split; [apply path_join_relative, built_filename_relative|].
  assert (Hn : existsb (N.eqb SLASH)
                 (built_filename uni_alnum district
                    (row_get row (lit "AC No. & AC Name"))
                    (row_get row (lit "Polling Station No."))
                    (row_get row (lit "Polling Station Type")) column.2 file_id) = false).
  { apply built_filename_no_slash; [exact Hs| |].
    - destruct Hc as [<-|[<-|[]]]; reflexivity.
    - apply id_no_slash. apply extract_file_id_valid in He. tauto. }
  split; [exact Hn|apply basename_path_join, Hn].
Qed.

Lemma task_files_lie_in_output_dir_witness :
  exists name,
    lit "photos/1-Paschim_Champaran-4-Bagaha-PS007-Auxiliary-PSB-ABC123.jpg"
    = join_prefix_of (lit "photos") ++ name
    /\ existsb (N.eqb SLASH) name = false
    /\ basename
         (lit "photos/1-Paschim_Champaran-4-Bagaha-PS007-Auxiliary-PSB-ABC123.jpg")
       = name.
Proof.
  apply (task_files_lie_in_output_dir ascii_alnum_only (lit "1-Paschim Champaran")
           (lit "photos") row_bagaha (lit "ABC123")).
  - vm_compute. reflexivity.
  - vm_compute. left. reflexivity.
Defined.

(** X9: the tasks of one row never share a destination: the file of the
    building photo and the file of the premises photo differ, also when both
    cells hold the same identifier. *)
Theorem row_tasks_paths_distinct (uni_alnum : N -> bool)
    (district output_dir : list N) (row : gmap (list N) (list N)) :
  NoDup (List.map snd (row_tasks uni_alnum district output_dir row)).
Proof.
  rewrite row_tasks_named. unfold tasks_named, photo_columns.
  cbn [flat_map fst snd].
  destruct (extract_file_id (row_get row (lit "Photo of Polling Station Building (PSB)")))
    as [id1|];
  destruct (extract_file_id
              (row_get row
                 (lit "Photo of Polling Station Premises with PS Building (PSP)")))
    as [id2|];
  cbn [app List.map snd]; repeat constructor; try (intros H; inversion H; fail).
  intros H. apply list_elem_of_In in H. destruct H as [H|[]].
  rewrite !path_join_relative in H by apply built_filename_relative.
  apply app_inv_head in H. unfold built_filename in H.
  repeat (apply app_inv_head in H).
  apply (f_equal (take 3)) in H. vm_compute in H. discriminate H.
Qed.

(** ** More on the task builder *)

Lemma replace_from_skip_all old new k s :
  (length s <= k)%nat -> replace_from old new k s = [].
Proof.
  revert k. induction s as [|c s IH]; intros k H; [reflexivity|].
  destruct k as [|k]; simpl in *; [lia|]. apply IH. lia.
Qed.

Lemma replace_last_occurrence old new x :
  old <> [] ->
  contains old (x ++ removelast old) = false ->
  replace old new (x ++ old) = x ++ new.
Proof.
  intros Hne. unfold replace. induction x as [|c x IH]; intros H.
  - destruct old as [|a old]; [contradiction|].
    change ([] ++ a :: old) with (a :: old).
    change (replace_from (a :: old) new 0 (a :: old))
      with (if startswith (a :: old) (a :: old)
            then new ++ replace_from (a :: old) new (length (a :: old) - 1) old
            else a :: replace_from (a :: old) new 0 old).
    rewrite <- (app_nil_r (a :: old)) at 2. rewrite startswith_app.
    rewrite replace_from_skip_all by (simpl; lia). rewrite app_nil_r. reflexivity.
  - change ((c :: x) ++ old) with (c :: x ++ old).
    change (replace_from old new 0 (c :: x ++ old))
      with (if startswith old (c :: x ++ old)
            then new ++ replace_from old new (length old - 1) (x ++ old)
            else c :: replace_from old new 0 (x ++ old)).
    assert (Hs : startswith old (c :: x ++ old) = false).
    { destruct (startswith old (c :: x ++ old)) eqn:S; [|reflexivity].
      apply contains_false_head in H. rewrite removelast_take in H.
      change (c :: x ++ old) with ((c :: x) ++ old) in S.
      apply (startswith_take _ _ _ (length old - 1)) in S; [|simpl; lia].
      congruence. }
    rewrite Hs. simpl. f_equal. apply IH. apply contains_false_tail in H. exact H.
Qed.

(** X10: the district label is read back from the path of a table: for a
    label without a slash in which the suffix '-photo-links.csv' does not
    start, the path of the table named label plus suffix, in any
    directory, gives the label. *)
Theorem district_of_round_trip (dir label : list N) :
  dir = [] \/ (exists d, dir = d ++ [SLASH]) ->
  existsb (N.eqb SLASH) label = false ->
  contains PHOTO_LINKS_SUFFIX (label ++ removelast PHOTO_LINKS_SUFFIX) = false ->
  district_of (dir ++ label ++ PHOTO_LINKS_SUFFIX) = label.
Proof.
  intros Hd Hl Hc. unfold district_of.
  assert (Hn : existsb (N.eqb SLASH) (label ++ PHOTO_LINKS_SUFFIX) = false)
    by (apply no_slash_app; split; [exact Hl|reflexivity]).
  assert (Hb : basename (dir ++ label ++ PHOTO_LINKS_SUFFIX) = label ++ PHOTO_LINKS_SUFFIX).
  { destruct Hd as [-> | [d ->]].
    - apply basename_no_slash, Hn.
    - rewrite <- app_assoc. apply basename_after_slash, Hn. }
  rewrite Hb.
  rewrite <- (app_nil_r label) at 2.
  apply (replace_last_occurrence PHOTO_LINKS_SUFFIX [] label); [discriminate|exact Hc].
Qed.

Lemma district_of_round_trip_witness :
  district_of (lit "data/bihar/" ++ lit "1-Paschim Champaran" ++ PHOTO_LINKS_SUFFIX)
  = lit "1-Paschim Champaran".
Proof.
  apply district_of_round_trip.
  - right. exists (lit "data/bihar"). reflexivity.
  - reflexivity.
  - vm_compute. reflexivity.
Defined.

Lemma fold_left_app_flat_map {A B} (f : A -> list B) (l : list A) (init : list B) :
  fold_left (fun acc a => acc ++ f a) l init = init ++ flat_map f l.
Proof.
  revert init. induction l as [|a l IH]; intros init; simpl.
  - rewrite app_nil_r. reflexivity.
  - rewrite IH, <- app_assoc. reflexivity.
Qed.

Lemma build_tasks_flat_map uni_alnum csv_path output_dir reader :
  build_tasks uni_alnum csv_path output_dir reader
  = flat_map (row_tasks uni_alnum (district_of csv_path) output_dir) reader.
Proof.
  unfold build_tasks.
  exact (fold_left_app_flat_map
           (row_tasks uni_alnum (district_of csv_path) output_dir) reader []).
Qed.

Lemma row_tasks_at_most_two uni_alnum district output_dir row :
  (length (row_tasks uni_alnum district output_dir row) <= 2)%nat.
Proof.
  rewrite row_tasks_named. unfold tasks_named, photo_columns. cbn [flat_map fst snd].
  repeat match goal with
         | |- context [extract_file_id ?s] => destruct (extract_file_id s)
         end; simpl; lia.
Qed.

(** X11: the task list of a table follows its rows: it is the tasks of the
    first row, then those of the second, and so on; reading two tables one
    after the other gives the tasks of the first followed by the tasks of
    the second; and no row gives more than two tasks. *)
Theorem build_tasks_follows_rows (uni_alnum : N -> bool) (csv_path output_dir : list N)
    (rows more_rows : list (gmap (list N) (list N))) :
  build_tasks uni_alnum csv_path output_dir rows
  = flat_map (row_tasks uni_alnum (district_of csv_path) output_dir) rows
  /\ build_tasks uni_alnum csv_path output_dir (rows ++ more_rows)
     = build_tasks uni_alnum csv_path output_dir rows
       ++ build_tasks uni_alnum csv_path output_dir more_rows
  /\ (length (build_tasks uni_alnum csv_path output_dir rows) <= 2 * length rows)%nat.
Proof.
  split; [apply build_tasks_flat_map|]. split.
  - rewrite !build_tasks_flat_map. apply flat_map_app.
  - rewrite build_tasks_flat_map. induction rows as [|r rows IH]; simpl; [lia|].
    rewrite length_app.
    pose proof (row_tasks_at_most_two uni_alnum (district_of csv_path) output_dir r).
    lia.
Qed.

Lemma tasks_named_ext name1 name2 output_dir row :
  (forall role id, name1 role id = name2 role id) ->
  tasks_named name1 output_dir row = tasks_named name2 output_dir row.
Proof.
  intros H. unfold tasks_named. apply flat_map_ext. intros column.
  destruct (extract_file_id (row_get row column.1)); [|reflexivity]. rewrite H. reflexivity.
Qed.

(** X12: a row that has the photo cells but none of the columns
    'AC No. & AC Name', 'Polling Station No.' and 'Polling Station Type'
    still gives its tasks: the missing cells count as empty, so the files
    are named with the label 'Unknown', the station '000' and an empty
    type. *)
Theorem row_with_missing_columns (uni_alnum : N -> bool) (district output_dir : list N)
    (row : gmap (list N) (list N)) :
  row !! lit "AC No. & AC Name" = None ->
  row !! lit "Polling Station No." = None ->
  row !! lit "Polling Station Type" = None ->
  row_tasks uni_alnum district output_dir row
  = tasks_named
      (fun role id =>
         sanitize_filename uni_alnum district ++ lit "-Unknown-PS000--" ++ role
         ++ lit "-" ++ id ++ lit ".jpg")
      output_dir row.
Proof.
  intros H1 H2 H3. rewrite row_tasks_named. unfold row_get. rewrite H1, H2, H3.
  apply tasks_named_ext. intros role id. reflexivity.
Qed.

Lemma row_with_missing_columns_witness :
  row_tasks ascii_alnum_only (lit "1-Paschim Champaran") (lit "photos")
    {[ lit "Photo of Polling Station Premises with PS Building (PSP)"
       := lit "https://drive.google.com/file/d/XYZ_9-8/view" ]}
  = [(lit "XYZ_9-8", lit "photos/1-Paschim_Champaran-Unknown-PS000--PSP-XYZ_9-8.jpg")].
Proof.
  rewrite row_with_missing_columns by reflexivity.
  vm_compute. reflexivity.
Defined.

(** ** More on the counting *)

Lemma fold_tally_occurrences results c :
  fold_left tally results c
  = mkCounts (downloaded_count c + occurrences Success results)
             (skipped_count c + occurrences Skipped results)
             (error_count c + occurrences Error results).
Proof.
  revert c. induction results as [|o results IH]; intros c.
  - destruct c. unfold occurrences. simpl. f_equal; lia.
  - simpl. rewrite IH. unfold occurrences. destruct o; simpl; f_equal; lia.
Qed.

Lemma count_outcomes_occurrences results :
  count_outcomes results
  = mkCounts (occurrences Success results) (occurrences Skipped results)
             (occurrences Error results).
Proof. unfold count_outcomes. rewrite fold_tally_occurrences. reflexivity. Qed.

Lemma occurrences_app o a b :
  occurrences o (a ++ b) = (occurrences o a + occurrences o b)%nat.
Proof. unfold occurrences. rewrite List.filter_app, length_app. reflexivity. Qed.

Lemma count_outcomes_app a b :
  count_outcomes (a ++ b) = add_counts (count_outcomes a) (count_outcomes b).
Proof.
  rewrite !count_outcomes_occurrences. unfold add_counts. simpl.
  rewrite !occurrences_app. reflexivity.
Qed.

(** X13: each of the three counters of [process_csv_file] is the number of
    outcomes of its kind, so the counts of two lists of outcomes add up to
    the counts of the two lists put together. *)
Theorem count_outcomes_by_kind (results more : list Outcome) :
  downloaded_count (count_outcomes results) = occurrences Success results
  /\ skipped_count (count_outcomes results) = occurrences Skipped results
  /\ error_count (count_outcomes results) = occurrences Error results
  /\ count_outcomes (results ++ more)
     = add_counts (count_outcomes results) (count_outcomes more).
Proof.
  rewrite count_outcomes_occurrences. repeat split.
  rewrite <- count_outcomes_occurrences. apply count_outcomes_app.
Qed.

(** X14: the counts do not depend on the order in which the outcomes are
    collected from the pool. *)
Theorem count_outcomes_order_independent (results results' : list Outcome) :
  Permutation results results' -> count_outcomes results = count_outcomes results'.
Proof. apply count_outcomes_Permutation. Qed.

Lemma count_outcomes_order_independent_witness :
  count_outcomes [Success; Error; Skipped; Success]
  = count_outcomes [Error; Success; Success; Skipped].
Proof.
  apply count_outcomes_order_independent.
  apply perm_trans with [Error; Success; Skipped; Success].
  - apply perm_swap.
  - do 2 apply perm_skip. apply perm_swap.
Defined.

(** ** More on the fetch executor *)

Section ExecutorMore.
Variable uni_lower : list N -> N -> list N -> list N.
Variable transport : Transport.

Lemma attempt_body_success_size file_id output_path max_retries attempt w :
  (attempt_body uni_lower transport file_id output_path max_retries attempt w).1
    = Return Success ->
  exists size,
    fs (attempt_body uni_lower transport file_id output_path max_retries attempt w).2
      !! output_path = Some size
    /\ 0 < size.
Proof.
  destruct (transport (calls w) (gdown_cmd file_id output_path) (fs w))
    as [rc err fs1|fs1|fs1] eqn:E.
  - rewrite (attempt_body_completed _ _ _ _ _ _ _ _ _ _ E). cbv zeta.
    destruct (fetched_ok rc output_path fs1) eqn:F.
    + intros _. simpl. unfold fetched_ok in F.
      apply andb_true_iff in F. destruct F as [_ F].
      destruct (fs1 !! output_path) as [size|]; [|discriminate F].
      exists size. split; [reflexivity|apply N.ltb_lt, F].
    + intros H. exfalso. exact (after_failure_not_success _ _ _ _ _ H).
  - rewrite (attempt_body_timeout _ _ _ _ _ _ _ _ E). cbv zeta.
    destruct (_ <? _)%Z; discriminate.
  - rewrite (attempt_body_raised _ _ _ _ _ _ _ _ E). discriminate.
Qed.

Lemma attempts_outcome file_id output_path max_retries remaining attempt w :
  match (attempts uni_lower transport file_id output_path max_retries
                  remaining attempt w).1 with
  | Success =>
      exists size,
        fs (attempts uni_lower transport file_id output_path max_retries
                     remaining attempt w).2 !! output_path = Some size
        /\ 0 < size
  | Skipped => False
  | Error => True
  end.
Proof.
  revert attempt w. induction remaining as [|r IH]; intros attempt w; simpl; [exact I|].
  pose proof (attempt_body_success_size file_id output_path max_retries attempt w) as Hs.
  pose proof (attempt_body_returns uni_lower transport file_id output_path
                max_retries attempt w) as Hr.
  destruct (attempt_body uni_lower transport file_id output_path max_retries attempt w)
    as [[o|] w1]; simpl in *; [|apply IH].
  destruct o; [apply Hs; reflexivity|exact (Hr Skipped eq_refl eq_refl)|exact I].
Qed.




Lemma attempts_frame file_id output_path max_retries remaining attempt w p :
  touches_only_output transport ->
  p <> output_path ->
  fs (attempts uni_lower transport file_id output_path max_retries remaining attempt w).2
    !! p = fs w !! p.
Proof.
  intros Ht Hp. revert attempt w. induction remaining as [|r IH]; intros attempt w;
    simpl; [reflexivity|].
  pose proof (attempt_body_other uni_lower transport file_id output_path
                max_retries attempt w p Hp) as Hb.
  rewrite (Ht (calls w) (gdown_cmd file_id output_path) (fs w) p Hp) in Hb.
  destruct (attempt_body uni_lower transport file_id output_path max_retries attempt w)
    as [[o|] w1]; simpl in *; [exact Hb|].
  rewrite IH. exact Hb.
Qed.

End ExecutorMore.

(** X16: what an outcome of [download_file] tells: Success is returned only
    when the destination did not exist before and a file of positive size
    is there afterwards; Skipped only when the destination existed, and then
    nothing at all has changed; Error only when the destination did not
    exist before. *)
Theorem download_file_outcome_meaning (uni_lower : list N -> N -> list N -> list N)
    (transport : Transport) (file_id output_path : list N) (max_retries : nat)
    (w : World) :
  let result := download_file uni_lower transport file_id output_path max_retries w in
  match result.1 with
  | Success =>
      fs w !! output_path = None
      /\ exists size, fs result.2 !! output_path = Some size /\ 0 < size
  | Skipped => is_Some (fs w !! output_path) /\ result.2 = w
  | Error => fs w !! output_path = None
  end.
Proof.
  unfold download_file. destruct (fs w !! output_path) as [size|] eqn:E; simpl.
  - split; [eauto|reflexivity].
  - pose proof (attempts_outcome uni_lower transport file_id output_path max_retries
                  max_retries 0 (sleep Jitter w)) as H.
    destruct (attempts uni_lower transport file_id output_path max_retries
                       max_retries 0 (sleep Jitter w)) as [[| |] w1];
      simpl in *; [split; [reflexivity|exact H]|contradiction|reflexivity].
Qed.





(** X19: with a transport that changes no file but its output,
    [download_file] leaves every other path of the filesystem as it was. *)
Theorem download_file_frame (uni_lower : list N -> N -> list N -> list N)
    (transport : Transport) (file_id output_path : list N) (max_retries : nat)
    (w : World) (p : list N) :
  touches_only_output transport ->
  p <> output_path ->
  fs (download_file uni_lower transport file_id output_path max_retries w).2 !! p
  = fs w !! p.
Proof.
  intros Ht Hp. unfold download_file. destruct (fs w !! output_path); [reflexivity|].
  rewrite attempts_frame by assumption. reflexivity.
Qed.

Lemma empty_file_stub_touches_only_output : touches_only_output empty_file_stub.
Proof.
  intros k cmd files p Hp. unfold empty_file_stub. simpl.
  apply lookup_insert_ne. congruence.
Qed.

Lemma download_file_frame_witness :
  fs (download_file ascii_lower_only empty_file_stub (lit "ABC123") (lit "photos/a.jpg") 3
        (mkWorld {[ lit "photos/b.jpg" := 7 ]} 0 [])).2 !! lit "photos/b.jpg"
  = Some 7.
Proof.
  rewrite (download_file_frame ascii_lower_only empty_file_stub (lit "ABC123")
             (lit "photos/a.jpg") 3 (mkWorld {[ lit "photos/b.jpg" := 7 ]} 0 [])
             (lit "photos/b.jpg") empty_file_stub_touches_only_output).
  - apply lookup_singleton_eq.
  - discriminate.
Defined.

Section TraceFacts.
Variable uni_lower : list N -> N -> list N -> list N.
Variable transport : Transport.

Lemma after_failure_events stderr max_retries attempt w :
  trace (after_failure uni_lower stderr max_retries attempt w).2
  = trace w ++
    (if is_rate_limited uni_lower stderr
     then [Printed MsgRateLimit; Slept (Backoff attempt)]
     else if (Z.of_nat attempt <? Z.of_nat max_retries - 1)%Z
          then [Slept RetryPause]
          else [Printed MsgFailedAfter]).
Proof.
  unfold after_failure. destruct (is_rate_limited uni_lower stderr); simpl.
  - rewrite <- app_assoc. reflexivity.
  - destruct (_ <? _)%Z; reflexivity.
Qed.

(** The events of one iteration: the invocation first, then at most one
    removal, of the destination, and no second invocation. *)
Lemma attempt_body_events file_id output_path max_retries attempt w :
  exists events,
    trace (attempt_body uni_lower transport file_id output_path max_retries attempt w).2
    = trace w ++ Ran (gdown_cmd file_id output_path) :: events
    /\ runs_of events = []
    /\ Forall (fun p => p = output_path) (removed_of events).
Proof.
  destruct (transport (calls w) (gdown_cmd file_id output_path) (fs w))
    as [rc err fs1|fs1|fs1] eqn:E.
  - rewrite (attempt_body_completed _ _ _ _ _ _ _ _ _ _ E). cbv zeta.
    destruct (fetched_ok rc output_path fs1).
    + exists [Printed MsgDone]. simpl. rewrite <- app_assoc.
      split; [reflexivity|]. split; [reflexivity|constructor].
    + rewrite after_failure_events.
      destruct (zero_byte rc output_path fs1); simpl; rewrite <- !app_assoc; simpl;
        eexists; (split; [reflexivity|]);
        destruct (is_rate_limited uni_lower err);
        try destruct (_ <? _)%Z; simpl; split; try reflexivity; repeat constructor.
  - rewrite (attempt_body_timeout _ _ _ _ _ _ _ _ E). cbv zeta.
    destruct (_ <? _)%Z; simpl; rewrite <- !app_assoc; simpl;
      eexists; (split; [reflexivity|]); split; try reflexivity; constructor.
  - rewrite (attempt_body_raised _ _ _ _ _ _ _ _ E). simpl. rewrite <- !app_assoc. simpl.
    eexists. split; [reflexivity|]. split; [reflexivity|constructor].
Qed.

Lemma attempts_events file_id output_path max_retries remaining attempt w :
  exists events,
    trace (attempts uni_lower transport file_id output_path max_retries
                    remaining attempt w).2 = trace w ++ events
    /\ calls (attempts uni_lower transport file_id output_path max_retries
                       remaining attempt w).2 = (calls w + length (runs_of events))%nat
    /\ (length (runs_of events) <= remaining)%nat
    /\ Forall (fun cmd => cmd = gdown_cmd file_id output_path) (runs_of events)
    /\ Forall (fun p => p = output_path) (removed_of events).
Proof.
  revert attempt w. induction remaining as [|r IH]; intros attempt w; simpl.
  - exists []. rewrite app_nil_r. simpl. repeat split; try constructor. lia.
  - destruct (attempt_body_events file_id output_path max_retries attempt w)
      as (ev1 & Ht & Hr & Hd).
    pose proof (attempt_body_calls uni_lower transport file_id output_path
                  max_retries attempt w) as Hc.
    destruct (attempt_body uni_lower transport file_id output_path max_retries attempt w)
      as [[o|] w1]; simpl in *.
    + exists (Ran (gdown_cmd file_id output_path) :: ev1).
      split; [exact Ht|]. unfold runs_of, removed_of in *. simpl. rewrite Hr. simpl.
      split; [lia|]. split; [lia|]. split; [repeat constructor|exact Hd].
    + destruct (IH (S attempt) w1) as (ev2 & Ht2 & Hc2 & Hl2 & Hr2 & Hd2).
      exists ((Ran (gdown_cmd file_id output_path) :: ev1) ++ ev2).
      split; [rewrite Ht2, Ht, <- app_assoc; reflexivity|].
      unfold runs_of, removed_of in *. rewrite !flat_map_app. simpl. rewrite Hr. simpl.
      split; [lia|]. split; [lia|].
      split; [constructor; [reflexivity|exact Hr2]|].
      apply Forall_app. split; assumption.
Qed.




End TraceFacts.

(** X20: what [download_file] does to the world: it only adds events to the
    trace; it makes at most [max_retries] invocations, each with the gdown
    command line of its own task; and it removes no path other than its
    destination. *)
Theorem download_file_effects (uni_lower : list N -> N -> list N -> list N)
    (transport : Transport) (file_id output_path : list N) (max_retries : nat)
    (w : World) :
  let result := download_file uni_lower transport file_id output_path max_retries w in
  exists events,
    trace result.2 = trace w ++ events
    /\ calls result.2 = (calls w + length (runs_of events))%nat
    /\ (length (runs_of events) <= max_retries)%nat
    /\ Forall (fun cmd => cmd = gdown_cmd file_id output_path) (runs_of events)
    /\ Forall (fun p => p = output_path) (removed_of events).
Proof.
  unfold download_file. destruct (fs w !! output_path); cbv zeta.
  - exists []. simpl. rewrite app_nil_r. repeat split; try constructor; lia.
  - destruct (attempts_events uni_lower transport file_id output_path max_retries
                max_retries 0 (sleep Jitter w)) as (ev & Ht & Hc & Hl & Hr & Hd).
    exists (Slept Jitter :: ev). simpl in *.
    split; [rewrite Ht, <- app_assoc; reflexivity|].
    unfold runs_of, removed_of in *. simpl. auto.
Qed.



Section CaseFacts.
Variable uni_lower : list N -> N -> list N -> list N.

Lemma lower_from_ascii before t y :
  forallb (fun c => c <? 128) t = true ->
  lower_from uni_lower before (t ++ y)
  = List.map to_lower_ascii t ++ lower_from uni_lower (rev t ++ before) y.
Proof.
  revert before. induction t as [|c t IH]; intros before; simpl; [reflexivity|].
  intros H. apply andb_true_iff in H. destruct H as [Hc Ht].
  unfold lower_char, to_lower_ascii at 1. rewrite Hc.
  rewrite IH by exact Ht. rewrite <- app_assoc.
  destruct (is_upper c); reflexivity.
Qed.

Lemma to_lower_ascii_preimage t term :
  List.map to_lower_ascii t = term ->
  forallb (fun c => c <? 128) term = true ->
  forallb (fun c => c <? 128) t = true.
Proof.
  intros <-. induction t as [|c t IH]; simpl; [reflexivity|].
  intros H. apply andb_true_iff in H. destruct H as [Hc Ht].
  rewrite (IH Ht), andb_true_r.
  unfold to_lower_ascii in Hc. destruct (is_upper c) eqn:U; [|exact Hc].
  unfold is_upper, in_range in U. apply andb_true_iff in U. destruct U as [_ U].
  apply N.leb_le in U. apply N.ltb_lt. lia.
Qed.

End CaseFacts.

(** X22: the rate-limit test does not look at the case of ASCII letters: a
    diagnostic that holds 'quota', 'limit' or 'too many' in any mix of upper
    and lower case is classified as a rate limit. *)
Theorem is_rate_limited_any_case (uni_lower : list N -> N -> list N -> list N)
    (pre t post term : list N) :
  In term rate_limit_terms ->
  List.map to_lower_ascii t = term ->
  is_rate_limited uni_lower (pre ++ t ++ post) = true.
Proof.
  intros Hin Ht. apply is_rate_limited_iff.
  assert (Ha : forallb (fun c => c <? 128) t = true).
  { apply (to_lower_ascii_preimage t term Ht).
    simpl in Hin. destruct Hin as [<-|[<-|[<-|[]]]]; reflexivity. }
  unfold lower. destruct (lower_from_app uni_lower [] pre (t ++ post)) as [pre' ->].
  rewrite lower_from_ascii by exact Ha. rewrite Ht.
  exists term, pre', (lower_from uni_lower (rev t ++ rev pre ++ []) post). auto.
Qed.

Lemma is_rate_limited_any_case_witness :
  is_rate_limited ascii_lower_only (lit "ERROR: " ++ lit "Too Many" ++ lit " Requests")
  = true.
Proof.
  apply (is_rate_limited_any_case ascii_lower_only (lit "ERROR: ") (lit "Too Many")
           (lit " Requests") (lit "too many")).
  - right. right. left. reflexivity.
  - reflexivity.
Defined.
